(** * webgl-image-sequence: a shallow embedding of [utils.js] and of the
    start-up script, with the properties of its specification.

    The JavaScript of the repository is embedded as follows.

    - Numbers.  A JavaScript number is a binary64 float.  The arithmetic of
      the pointer-to-frame mapping is embedded over the rationals [Q], each
      operation followed by a rounding operator [rnd] about which only two
      facts are used: it is monotone, and it leaves the dyadic numbers
      [m / 2] with [|m| <= 2^53] alone.  Round-to-nearest-even onto the
      binary64 grid is one instance ([binary64]), exact arithmetic another
      ([exact_arithmetic]).  Where the code is compared with the exact
      value of a formula, the distance that the binary64 rounding moves a
      number is used as well.  Infinities, NaN and the sign of zero are
      outside the model, and so are overflow and division by zero: where
      a property depends on them it is stated for a viewport of positive
      width and for operands that keep every step finite.
    - Integers that go through a bit operation are converted with
      [ToInt32], wrap-around written out.
    - Objects.  Arrays live in a store indexed by locations; WebGL shaders
      and textures live in tables of the rendering context; [Image]
      elements with their [onload] closures are a list of the world.  The
      page has one rendering context, the [gl] that every function is
      handed; its shader compiler is a parameter of the context.
    - Effects.  Every function that touches the store, the rendering
      context, the console or the clock is a computation in the monad [JS],
      which threads the world and propagates thrown errors. *)

From Stdlib Require Import ZArith QArith Qround Qabs Qpower Lqa Lia.
From stdpp Require Import base option list gmap strings pretty.

Local Open Scope Z_scope.

(** ** Values, objects and the world *)

Inductive error : Type :=
  | RangeError
  | TypeError.

Inductive outcome (A : Type) : Type :=
  | Return (a : A)
  | Throw (e : error).
Arguments Return {A} a.
Arguments Throw {A} e.

Inductive value : Type :=
  | VUndefined
  | VNull
  | VNum (q : Q)
  | VStr (s : string)
  | VArray (l : N)
  | VShader (h : N)
  | VTexture (h : N).

(** An array element is either present or a hole (an index that
    [Array(n)] leaves without a property). *)
Definition elem : Type := option value.

Inductive shader_type : Type :=
  | VERTEX_SHADER
  | FRAGMENT_SHADER.

Record shader_obj : Type := ShaderObj {
  sh_type : shader_type;
  sh_source : string;
  sh_compile_status : bool;
  sh_info_log : string
}.

Inductive wrap_mode : Type :=
  | REPEAT
  | CLAMP_TO_EDGE
  | MIRRORED_REPEAT.

Inductive min_filter : Type :=
  | NEAREST
  | LINEAR
  | NEAREST_MIPMAP_NEAREST
  | LINEAR_MIPMAP_NEAREST
  | NEAREST_MIPMAP_LINEAR
  | LINEAR_MIPMAP_LINEAR.

(** A decoded image, as far as the code looks at it. *)
Record image_data : Type := ImageData {
  width : Z;
  height : Z
}.

Record texture_obj : Type := TextureObj {
  tex_image : option image_data;
  tex_mipmap : bool;
  tex_wrap_s : wrap_mode;
  tex_wrap_t : wrap_mode;
  tex_min_filter : min_filter
}.

(** The state of a texture object that [gl.createTexture] hands out. *)
Definition new_texture : texture_obj :=
  {| tex_image := None; tex_mipmap := false;
     tex_wrap_s := REPEAT; tex_wrap_t := REPEAT;
     tex_min_filter := NEAREST_MIPMAP_LINEAR |}.

(** The rendering context: its object tables, the texture bound to
    [TEXTURE_2D] and the shader compiler of the driver, which answers a
    source with a compile status and an info log. *)
Record glctx : Type := GL {
  gl_shaders : gmap N shader_obj;
  gl_textures : gmap N texture_obj;
  gl_texture_2d : option N;
  gl_compiler : shader_type -> string -> bool * string
}.

(** An [Image] element whose [src] has been set by [loadTexture]: the URL
    being fetched and the texture its [onload] closure captured. *)
Record image : Type := Image {
  img_src : string;
  img_texture : N
}.

Record world : Type := World {
  arrays : gmap N (list elem);
  gl : glctx;
  images : list image;
  console : list (list value);
  innerWidth : Q;
  clock : Z
}.

Definition set_arrays (f : gmap N (list elem) -> gmap N (list elem)) (w : world) : world :=
  {| arrays := f (arrays w); gl := gl w; images := images w;
     console := console w; innerWidth := innerWidth w; clock := clock w |}.

Definition set_gl (f : glctx -> glctx) (w : world) : world :=
  {| arrays := arrays w; gl := f (gl w); images := images w;
     console := console w; innerWidth := innerWidth w; clock := clock w |}.

Definition set_images (f : list image -> list image) (w : world) : world :=
  {| arrays := arrays w; gl := gl w; images := f (images w);
     console := console w; innerWidth := innerWidth w; clock := clock w |}.

Definition set_console (f : list (list value) -> list (list value)) (w : world) : world :=
  {| arrays := arrays w; gl := gl w; images := images w;
     console := f (console w); innerWidth := innerWidth w; clock := clock w |}.

Definition set_shaders (f : gmap N shader_obj -> gmap N shader_obj) (g : glctx) : glctx :=
  {| gl_shaders := f (gl_shaders g); gl_textures := gl_textures g;
     gl_texture_2d := gl_texture_2d g; gl_compiler := gl_compiler g |}.

Definition set_textures (f : gmap N texture_obj -> gmap N texture_obj) (g : glctx) : glctx :=
  {| gl_shaders := gl_shaders g; gl_textures := f (gl_textures g);
     gl_texture_2d := gl_texture_2d g; gl_compiler := gl_compiler g |}.

Definition set_texture_2d (t : option N) (g : glctx) : glctx :=
  {| gl_shaders := gl_shaders g; gl_textures := gl_textures g;
     gl_texture_2d := t; gl_compiler := gl_compiler g |}.

(** ** The monad of JavaScript computations *)

Definition JS (A : Type) : Type := world -> outcome A * world.

#[global] Instance JS_ret : MRet JS := λ A a σ, (Return a, σ).

#[global] Instance JS_bind : MBind JS := λ A B f m σ,
  match m σ with
  | (Return a, σ') => f a σ'
  | (Throw e, σ') => (Throw e, σ')
  end.

Definition throw {A : Type} (e : error) : JS A := λ σ, (Throw e, σ).
Definition gets {A : Type} (f : world -> A) : JS A := λ σ, (Return (f σ), σ).
Definition modify (f : world -> world) : JS unit := λ σ, (Return tt, f σ).

(** ** Arrays *)

Module Array.

(** The largest length an array can have. *)
Definition max_length : Z := 2 ^ 32 - 1.

Definition alloc (l : list elem) : JS N := λ σ,
  let a := fresh (dom (arrays σ)) in
  (Return a, set_arrays <[a := l]> σ).

Definition read (a : N) : JS (list elem) := λ σ,
  match arrays σ !! a with
  | Some l => (Return l, σ)
  | None => (Throw TypeError, σ)
  end.

(** [Array(n)] for a number [n] with an integer value: [n] holes, or a
    [RangeError] when [n] is not a valid array length. *)
Definition create (n : Z) : JS N :=
  if bool_decide (0 <= n <= max_length)
  then alloc (replicate (Z.to_nat n) None)
  else throw RangeError.

(** [[...a]]: a new array with the elements of [a], holes read as
    [undefined]. *)
Definition spread (a : N) : JS N :=
  l ← read a;
  alloc ((λ x : elem, Some (default VUndefined x)) <$> l).

(** [a.concat(b)] for arrays [a] and [b]: a new array; setting its
    length fails when it exceeds [max_length]. *)
Definition concat (a b : N) : JS N :=
  la ← read a;
  lb ← read b;
  if bool_decide (Z.of_nat (length (la ++ lb)) <= max_length)
  then alloc (la ++ lb)
  else throw RangeError.

(** The loop of [a.reduce(callback, initial)] over the elements of [a]
    for a callback that looks at the accumulator only: holes are
    skipped. *)
Fixpoint reduce_loop {A : Type} (callback : A -> JS A) (l : list elem) (acc : A) : JS A :=
  match l with
  | [] => mret acc
  | None :: l' => reduce_loop callback l' acc
  | Some _ :: l' => acc' ← callback acc; reduce_loop callback l' acc'
  end.

Definition reduce {A : Type} (a : N) (callback : A -> JS A) (initial : A) : JS A :=
  l ← read a;
  reduce_loop callback l initial.

End Array.

(** ** utils.js: [repeat] *)

(** [[...Array(n)].reduce((sum) => sum.concat(pattern), [])] *)
Definition repeat (n : Z) (pattern : N) : JS N :=
  holes ← Array.create n;
  indices ← Array.spread holes;
  initial ← Array.alloc [];
  Array.reduce indices (λ sum, Array.concat sum pattern) initial.

(** ** Numbers *)

(** The rounding of binary64 arithmetic, as far as the code relies on it.
    Every integer of magnitude up to [2^52] and every half of one is of the
    form [m / 2] with [|m| <= 2^53]. *)
Class Rounding : Type := {
  rnd : Q -> Q;
  rnd_monotone : ∀ x y : Q, (x <= y)%Q -> (rnd x <= rnd y)%Q;
  rnd_dyadic : ∀ m : Z, Z.abs m <= 2 ^ 53 -> (rnd (m # 2) == m # 2)%Q
}.

(** Round-to-nearest, ties-to-even, onto the binary64 grid: 53 significant
    bits, the subnormal numbers from [2^-1074] on, and no largest exponent
    (a binary64 operation whose result exceeds the largest finite number
    gives [Infinity], which the model does not have). *)
Module Binary64.
Local Open Scope Q_scope.

Definition pow2 (e : Z) : Q := 2 ^ e.

(** The integer [k] with [2^k <= x < 2^(k+1)], for a positive [x]. *)
Definition ilog2 (x : Q) : Z :=
  let k := (Z.log2 (Qnum x) - Z.log2 (Z.pos (Qden x)))%Z in
  if Qle_bool (pow2 k) x then k else (k - 1)%Z.

(** The binade of a positive [x]; the subnormal numbers share the lowest. *)
Definition binade (x : Q) : Z := Z.max (ilog2 x) (-1022).

(** The nearest integer, the even one of two that are equally near. *)
Definition round_even (x : Q) : Z :=
  let f := Qfloor x in
  match Qcompare (x - inject_Z f) (1 # 2) with
  | Lt => f
  | Gt => (f + 1)%Z
  | Eq => if Z.even f then f else (f + 1)%Z
  end.

Definition round_pos (x : Q) : Q :=
  let e := (binade x - 52)%Z in
  inject_Z (round_even (x / pow2 e)) * pow2 e.

Definition round (x : Q) : Q :=
  match Qcompare x 0 with
  | Eq => 0
  | Gt => round_pos x
  | Lt => - round_pos (- x)
  end.
End Binary64.

Module Number.
Section Arith.
Context {R : Rounding}.

Definition add (x y : Q) : Q := rnd (x + y).
Definition sub (x y : Q) : Q := rnd (x - y).
Definition mul (x y : Q) : Q := rnd (x * y).
Definition div (x y : Q) : Q := rnd (x / y).
End Arith.

(** [Number::toString] of an integer, in decimal digits (JavaScript
    switches to exponent notation from [10^21] on). *)
Definition toString (k : Z) : string := pretty k.
End Number.

Infix "⊕" := Number.add (at level 50, left associativity).
Infix "⊖" := Number.sub (at level 50, left associativity).
Infix "⊗" := Number.mul (at level 40, left associativity).
Infix "⊘" := Number.div (at level 40, left associativity).

Module Math.
Definition floor (x : Q) : Z := Qfloor x.
End Math.

(** [ToInt32] of a number with an integer value. *)
Definition ToInt32 (z : Z) : Z :=
  let m := z mod 2 ^ 32 in
  if bool_decide (2 ^ 31 <= m) then m - 2 ^ 32 else m.

(** ** The rendering context and the host *)

Module gl_.

Definition createShader (type : shader_type) : JS N := λ σ,
  let s := fresh (dom (gl_shaders (gl σ))) in
  (Return s, set_gl (set_shaders <[s := ShaderObj type "" false ""]>) σ).

Definition shaderSource (shader : N) (source : string) : JS unit :=
  modify (set_gl (set_shaders (alter (λ o,
    ShaderObj (sh_type o) source (sh_compile_status o) (sh_info_log o)) shader))).

Definition compileShader (shader : N) : JS unit :=
  modify (set_gl (λ g, set_shaders (alter (λ o,
    let '(status, log) := gl_compiler g (sh_type o) (sh_source o) in
    ShaderObj (sh_type o) (sh_source o) status log) shader) g)).

(** [gl.getShaderParameter(shader, gl.COMPILE_STATUS)] *)
Definition getShaderParameter_COMPILE_STATUS (shader : N) : JS bool :=
  gets (λ σ, default false (sh_compile_status <$> gl_shaders (gl σ) !! shader)).

Definition getShaderInfoLog (shader : N) : JS value :=
  gets (λ σ, default VNull ((λ o, VStr (sh_info_log o)) <$> gl_shaders (gl σ) !! shader)).

Definition deleteShader (shader : N) : JS unit :=
  modify (set_gl (set_shaders (delete shader))).

Definition createTexture : JS N := λ σ,
  let t := fresh (dom (gl_textures (gl σ))) in
  (Return t, set_gl (set_textures <[t := new_texture]>) σ).

(** [gl.bindTexture(gl.TEXTURE_2D, texture)] *)
Definition bindTexture (texture : N) : JS unit :=
  modify (set_gl (set_texture_2d (Some texture))).

(** The operations below act on the texture bound to [TEXTURE_2D]; with
    no texture bound they leave the tables as they are. *)
Definition on_bound (f : texture_obj -> texture_obj) : JS unit :=
  modify (set_gl (λ g,
    match gl_texture_2d g with
    | Some t => set_textures (alter f t) g
    | None => g
    end)).

(** [gl.texImage2D(gl.TEXTURE_2D, 0, gl.RGBA, gl.RGBA, gl.UNSIGNED_BYTE, image)] *)
Definition texImage2D (img : image_data) : JS unit :=
  on_bound (λ o, TextureObj (Some img) (tex_mipmap o)
                   (tex_wrap_s o) (tex_wrap_t o) (tex_min_filter o)).

(** [gl.generateMipmap(gl.TEXTURE_2D)] *)
Definition generateMipmap : JS unit :=
  on_bound (λ o, TextureObj (tex_image o) true
                   (tex_wrap_s o) (tex_wrap_t o) (tex_min_filter o)).

Inductive tex_parameter : Type :=
  | TEXTURE_WRAP_S (m : wrap_mode)
  | TEXTURE_WRAP_T (m : wrap_mode)
  | TEXTURE_MIN_FILTER (f : min_filter).

(** [gl.texParameteri(gl.TEXTURE_2D, pname, param)] *)
Definition texParameteri (p : tex_parameter) : JS unit :=
  on_bound (λ o,
    match p with
    | TEXTURE_WRAP_S m =>
        TextureObj (tex_image o) (tex_mipmap o) m (tex_wrap_t o) (tex_min_filter o)
    | TEXTURE_WRAP_T m =>
        TextureObj (tex_image o) (tex_mipmap o) (tex_wrap_s o) m (tex_min_filter o)
    | TEXTURE_MIN_FILTER f =>
        TextureObj (tex_image o) (tex_mipmap o) (tex_wrap_s o) (tex_wrap_t o) f
    end).

End gl_.

Module console_.
Definition log (args : list value) : JS unit :=
  modify (set_console (λ c, c ++ [args])).
End console_.

Module Date.
Definition now : JS Z := gets clock.
End Date.

(** ** utils.js: textures *)

Definition isPowerOf2 (value : Z) : bool :=
  bool_decide (Z.land (ToInt32 value) (ToInt32 (value - 1)) = 0).

(** The [onload] closure of [loadTexture], run when the image [img] has
    been decoded; [texture] is the variable it captured. *)
Definition loadTexture_onload (texture : N) (img : image_data) : JS unit :=
  gl_.bindTexture texture;;
  gl_.texImage2D img;;
  if isPowerOf2 (width img) && isPowerOf2 (height img)
  then gl_.generateMipmap
  else
    gl_.texParameteri (gl_.TEXTURE_WRAP_S CLAMP_TO_EDGE);;
    gl_.texParameteri (gl_.TEXTURE_WRAP_T CLAMP_TO_EDGE);;
    gl_.texParameteri (gl_.TEXTURE_MIN_FILTER LINEAR).

(** [loadTexture(gl, url)]: the new [Image] with its closure and its [src]
    joins the images of the world; the texture is returned at once. *)
Definition loadTexture (url : string) : JS N :=
  texture ← gl_.createTexture;
  modify (set_images (λ l, l ++ [Image url texture]));;
  mret texture.

(** ** utils.js: shaders *)

(** A function that falls off its end returns [undefined]. *)
Definition createShader (type : shader_type) (source : string) : JS value :=
  shader ← gl_.createShader type;
  gl_.shaderSource shader source;;
  gl_.compileShader shader;;
  success ← gl_.getShaderParameter_COMPILE_STATUS shader;
  if success : bool then mret (VShader shader)
  else
    log ← gl_.getShaderInfoLog shader;
    console_.log [log];;
    gl_.deleteShader shader;;
    mret VUndefined.

(** ** utils.js: the pointer *)

Record MouseEvent : Type := { clientX : Q }.

Section Pointer.
Context {R : Rounding}.

Definition getMouseX (x : Q) : JS Q :=
  W ← gets innerWidth;
  mret ((x ⊘ W) ⊗ 2 ⊖ 1).

(** The local constant [textureIndex] of [handleImageShown]; a missing
    [min] takes its default, 1. *)
Definition textureIndex (e : MouseEvent) (min : option Q) (max : Q) : JS Z :=
  x ← getMouseX (clientX e);
  mret (Math.floor (((x ⊕ default 1%Q min) ⊗ max) ⊘ 2)).

Definition handleImageShown (e : MouseEvent) (min : option Q) (max : Q) : JS unit :=
  index ← textureIndex e min max;
  if bool_decide (index = 0%Z) then mret tt
  else
    texture ← loadTexture ("assets/images/image-" +:+ Number.toString index +:+ ".webp");
    now ← Date.now;
    console_.log [VNum (inject_Z now); VStr "{{ handleImageShown }}"; VTexture texture].

(** ** The start-up script: its pointer-move listener *)

Definition imageSequenceLength : Q := 118.

Definition mousemove_listener (e : MouseEvent) : JS unit :=
  handleImageShown e (Some 1%Q) imageSequenceLength.

End Pointer.

(** ** Specification vocabulary *)

(** An exact power of two. *)
Definition power_of_two (z : Z) : Prop := ∃ k : Z, 0 <= k ∧ z = 2 ^ k.

(** [p] concatenated [n] times. *)
Definition concat_times {A : Type} (n : nat) (p : list A) : list A :=
  mjoin (replicate n p).

(** The pointer-to-frame mapping in the words of the specification, read
    with the arithmetic of numbers. *)
Section Mapping.
Context {R : Rounding}.

Definition normalizedX (pointerX viewportWidth : Q) : Q :=
  (pointerX ⊘ viewportWidth) ⊗ 2 ⊖ 1.

Definition frameIndex (normalizedX min max : Q) : Z :=
  Math.floor (((normalizedX ⊕ min) ⊗ max) ⊘ 2).
End Mapping.

(** What the callback leaves in the texture it captured, from the object
    [o] it found there. *)
Definition loaded_texture (o : texture_obj) (img : image_data) : texture_obj :=
  if isPowerOf2 (width img) && isPowerOf2 (height img)
  then TextureObj (Some img) true (tex_wrap_s o) (tex_wrap_t o) (tex_min_filter o)
  else TextureObj (Some img) (tex_mipmap o) CLAMP_TO_EDGE CLAMP_TO_EDGE LINEAR.

(** A computation has no side effect when all it does to the world is to
    allocate arrays: every array of the store is still there with the same
    elements, and the rest of the world is the same. *)
Definition only_allocates (σ σ' : world) : Prop :=
  arrays σ ⊆ arrays σ'
  ∧ gl σ' = gl σ
  ∧ images σ' = images σ
  ∧ console σ' = console σ
  ∧ innerWidth σ' = innerWidth σ
  ∧ clock σ' = clock σ.

(** The URL of frame [k]. *)
Definition frame_url (k : Z) : string :=
  "assets/images/image-" +:+ pretty k +:+ ".webp".

(** Exact arithmetic: no rounding at all. *)
#[refine] Instance exact_arithmetic : Rounding := {| rnd := λ x, x |}.
Proof.
  - intros x y H. exact H.
  - intros m _. reflexivity.
Defined.

(** A page that has just been opened in a window 1920 pixels wide, with a
    driver that accepts every shader but the empty one. *)
Definition page : world :=
  {| arrays := ∅;
     gl := {| gl_shaders := ∅; gl_textures := ∅; gl_texture_2d := None;
              gl_compiler := λ _ source,
                if bool_decide (source = "") then (false, "ERROR: no main")
                else (true, "") |};
     images := []; console := []; innerWidth := 1920; clock := 0 |}.

(** The array literal that the start-up script hands to [repeat] for the
    texture coordinates of the quad. *)
Definition uv_literal : list elem :=
  (λ q : Q, Some (VNum q)) <$> [1; 1; 1; 0; 0; 1; 0; 1; 1; 0; 0; 0]%Q.

(** The page with one array literal evaluated, at location 0. *)
Definition page_with (l : list elem) : world := set_arrays <[0%N := l]> page.

(** ** The host: events one after the other *)

Section Events.
Context {R : Rounding}.

(** The pointer-move events [es], delivered in order to the listener of
    the start-up script. *)
Fixpoint pointer_moves (es : list MouseEvent) : JS unit :=
  match es with
  | [] => mret tt
  | e :: es' => mousemove_listener e;; pointer_moves es'
  end.

(** The frame that the listener computes for an event in a viewport of
    width [W]. *)
Definition deployed_frame (W : Q) (e : MouseEvent) : Z :=
  frameIndex (normalizedX (clientX e) W) 1 imageSequenceLength.

End Events.

(** The world after [handleImageShown] has requested frame [k]. *)
Definition requested (σ : world) (k : Z) : world :=
  let texture := fresh (dom (gl_textures (gl σ))) in
  set_console (λ c, c ++ [[VNum (inject_Z (clock σ)); VStr "{{ handleImageShown }}";
                           VTexture texture]])
    (set_images (λ l, l ++ [Image (frame_url k) texture])
       (set_gl (set_textures <[texture := new_texture]>) σ)).

(** ** utils.js: buffers and vertex attributes *)

(** [createBuffer] and [enableAttribute] work on the part of the rendering
    context that holds buffers, programs and vertex attributes, and on
    nothing else of the world: they are computations on that part. *)

Inductive buffer_target : Type :=
  | ARRAY_BUFFER
  | ELEMENT_ARRAY_BUFFER.

#[global] Instance buffer_target_eq_dec : EqDecision buffer_target.
Proof. solve_decision. Defined.

Inductive buffer_usage : Type :=
  | STREAM_DRAW
  | STATIC_DRAW
  | DYNAMIC_DRAW.

Inductive component_type : Type :=
  | BYTE
  | UNSIGNED_BYTE
  | SHORT
  | UNSIGNED_SHORT
  | FLOAT.

(** The size in bytes of a component. *)
Definition sizeof (t : component_type) : Z :=
  match t with
  | BYTE | UNSIGNED_BYTE => 1
  | SHORT | UNSIGNED_SHORT => 2
  | FLOAT => 4
  end.

(** The bytes of an [ArrayBufferView]. *)
Definition buffer_source : Type := list Z.

(** A buffer object: the target it was first bound to, which it keeps for
    life, and its data store, if it has been given one. *)
Record buffer_obj : Type := BufferObj {
  buf_target : option buffer_target;
  buf_store : option (buffer_source * buffer_usage)
}.

(** A linked program, as far as the code asks: the locations of its
    active attributes. *)
Record program_obj : Type := ProgramObj {
  prog_attributes : gmap string N
}.

Record vertex_attrib : Type := VertexAttrib {
  va_enabled : bool;
  va_buffer : option N;
  va_size : Z;
  va_type : component_type;
  va_normalized : bool;
  va_stride : Z;
  va_offset : Z
}.

(** The state of a vertex attribute that nothing has touched. *)
Definition initial_attrib : vertex_attrib :=
  VertexAttrib false None 4 FLOAT false 0 0.

Record pipeline : Type := Pipeline {
  pl_buffers : gmap N buffer_obj;
  pl_array_buffer : option N;
  pl_element_array_buffer : option N;
  pl_programs : gmap N program_obj;
  pl_vertex_attribs : gmap N vertex_attrib;
  pl_max_vertex_attribs : Z
}.

Definition attrib_at (pl : pipeline) (i : N) : vertex_attrib :=
  default initial_attrib (pl_vertex_attribs pl !! i).

Definition bound_to (pl : pipeline) (target : buffer_target) : option N :=
  match target with
  | ARRAY_BUFFER => pl_array_buffer pl
  | ELEMENT_ARRAY_BUFFER => pl_element_array_buffer pl
  end.

Definition set_buffers (f : gmap N buffer_obj -> gmap N buffer_obj) (pl : pipeline) : pipeline :=
  Pipeline (f (pl_buffers pl)) (pl_array_buffer pl) (pl_element_array_buffer pl)
    (pl_programs pl) (pl_vertex_attribs pl) (pl_max_vertex_attribs pl).

Definition set_bound (target : buffer_target) (b : option N) (pl : pipeline) : pipeline :=
  match target with
  | ARRAY_BUFFER =>
      Pipeline (pl_buffers pl) b (pl_element_array_buffer pl)
        (pl_programs pl) (pl_vertex_attribs pl) (pl_max_vertex_attribs pl)
  | ELEMENT_ARRAY_BUFFER =>
      Pipeline (pl_buffers pl) (pl_array_buffer pl) b
        (pl_programs pl) (pl_vertex_attribs pl) (pl_max_vertex_attribs pl)
  end.

Definition set_attrib (i : N) (a : vertex_attrib) (pl : pipeline) : pipeline :=
  Pipeline (pl_buffers pl) (pl_array_buffer pl) (pl_element_array_buffer pl)
    (pl_programs pl) (<[i := a]> (pl_vertex_attribs pl)) (pl_max_vertex_attribs pl).

Definition GLP (A : Type) : Type := pipeline -> outcome A * pipeline.

#[global] Instance GLP_ret : MRet GLP := λ A a pl, (Return a, pl).

#[global] Instance GLP_bind : MBind GLP := λ A B f m pl,
  match m pl with
  | (Return a, pl') => f a pl'
  | (Throw e, pl') => (Throw e, pl')
  end.

(** [ToUint32] of a number with an integer value: how a location goes
    into a [GLuint] parameter. *)
Definition ToUint32 (z : Z) : Z := z mod 2 ^ 32.

(** The methods of the rendering context that the two functions call.  A
    call that the context refuses records an error in the context and
    changes nothing: it does not throw. *)
Module gl_pipeline.

Definition createBuffer : GLP N := λ pl,
  let b := fresh (dom (pl_buffers pl)) in
  (Return b, set_buffers <[b := BufferObj None None]> pl).

(** A buffer can be bound to the target of its first binding only; a
    buffer that does not exist cannot be bound. *)
Definition bindBuffer (target : buffer_target) (buffer : N) : GLP unit := λ pl,
  (Return tt,
   match pl_buffers pl !! buffer with
   | Some o =>
       match buf_target o with
       | Some t =>
           if decide (t = target) then set_bound target (Some buffer) pl else pl
       | None =>
           set_bound target (Some buffer)
             (set_buffers <[buffer := BufferObj (Some target) (buf_store o)]> pl)
       end
   | None => pl
   end).

(** The data goes to the buffer bound to the target; a [null] for the
    data, or no buffer bound, is refused. *)
Definition bufferData (target : buffer_target) (data : option buffer_source)
    (usage : buffer_usage) : GLP unit := λ pl,
  (Return tt,
   match bound_to pl target, data with
   | Some b, Some d =>
       set_buffers (alter (λ o, BufferObj (buf_target o) (Some (d, usage))) b) pl
   | _, _ => pl
   end).

(** The location of an active attribute of a linked program, or -1. *)
Definition getAttribLocation (program : N) (name : string) : GLP Z := λ pl,
  (Return
     match pl_programs pl !! program with
     | Some p =>
         match prog_attributes p !! name with
         | Some i => Z.of_N i
         | None => -1
         end
     | None => -1
     end,
   pl).

Definition enableVertexAttribArray (index : Z) : GLP unit := λ pl,
  (Return tt,
   let i := ToUint32 index in
   if bool_decide (i < pl_max_vertex_attribs pl)
   then
     let a := attrib_at pl (Z.to_N i) in
     set_attrib (Z.to_N i)
       (VertexAttrib true (va_buffer a) (va_size a) (va_type a) (va_normalized a)
          (va_stride a) (va_offset a)) pl
   else pl).

(** The layouts that [vertexAttribPointer] accepts for an attribute. *)
Definition valid_layout (pl : pipeline) (size : Z) (type : component_type)
    (stride offset : Z) : Prop :=
  1 <= size <= 4
  ∧ 0 <= stride <= 255
  ∧ 0 <= offset
  ∧ stride mod sizeof type = 0
  ∧ offset mod sizeof type = 0
  ∧ (pl_array_buffer pl = None -> offset = 0).

#[global] Instance valid_layout_dec pl size type stride offset :
  Decision (valid_layout pl size type stride offset).
Proof. unfold valid_layout. apply _. Defined.

(** The attribute takes the buffer that is bound to [ARRAY_BUFFER] at the
    time of the call, with the layout given. *)
Definition vertexAttribPointer (index size : Z) (type : component_type)
    (normalized : bool) (stride offset : Z) : GLP unit := λ pl,
  (Return tt,
   let i := ToUint32 index in
   if bool_decide (i < pl_max_vertex_attribs pl ∧ valid_layout pl size type stride offset)
   then
     set_attrib (Z.to_N i)
       (VertexAttrib (va_enabled (attrib_at pl (Z.to_N i))) (pl_array_buffer pl)
          size type normalized stride offset) pl
   else pl).

End gl_pipeline.

Definition createBuffer (target : buffer_target) (data : option buffer_source)
    (usage : buffer_usage) : GLP N :=
  buffer ← gl_pipeline.createBuffer;
  gl_pipeline.bindBuffer target buffer;;
  gl_pipeline.bufferData target data usage;;
  mret buffer.

(** A parameter that the caller leaves out takes its default. *)
Definition enableAttribute (program : N) (name : string) (buffer : N)
    (size : option Z) (type : option component_type) (normalized : option bool)
    (stride offset : option Z) : GLP Z :=
  let size := default 3 size in
  let type := default FLOAT type in
  let normalized := default false normalized in
  let stride := default 0 stride in
  let offset := default 0 offset in
  attribute ← gl_pipeline.getAttribLocation program name;
  gl_pipeline.enableVertexAttribArray attribute;;
  gl_pipeline.bindBuffer ARRAY_BUFFER buffer;;
  gl_pipeline.vertexAttribPointer attribute size type normalized stride offset;;
  mret attribute.

(** A buffer that [ARRAY_BUFFER] accepts: one that exists and has not
    been bound to [ELEMENT_ARRAY_BUFFER]. *)
Definition array_bindable (pl : pipeline) (buffer : N) : Prop :=
  ∃ o : buffer_obj,
    pl_buffers pl !! buffer = Some o ∧ buf_target o ≠ Some ELEMENT_ARRAY_BUFFER.

(** A layout that [vertexAttribPointer] accepts when a buffer is bound. *)
Definition layout_ok (size : Z) (type : component_type) (stride offset : Z) : Prop :=
  1 <= size <= 4
  ∧ 0 <= stride <= 255
  ∧ 0 <= offset
  ∧ stride mod sizeof type = 0
  ∧ offset mod sizeof type = 0.

(** A location that the context has a vertex attribute for. *)
Definition valid_location (pl : pipeline) (i : N) : Prop :=
  Z.of_N i < pl_max_vertex_attribs pl ∧ pl_max_vertex_attribs pl < 2 ^ 32.

(** A rendering context with 16 vertex attributes, one linked program
    with the attributes [position] and [uv], and no buffer yet. *)
Definition quad_pipeline : pipeline :=
  {| pl_buffers := ∅;
     pl_array_buffer := None;
     pl_element_array_buffer := None;
     pl_programs :=
       {[ 0%N := ProgramObj {[ "position" := 0%N; "uv" := 1%N ]} ]};
     pl_vertex_attribs := ∅;
     pl_max_vertex_attribs := 16 |}.

(** ** The pointer-to-frame mapping without rounding *)





(** * Properties *)

(** ** The power-of-two check *)

Lemma ToInt32_small (z : Z) : - 2 ^ 31 <= z < 2 ^ 31 -> ToInt32 z = z.
Proof.
  intros Hz. unfold ToInt32. cbv zeta.
  destruct (Z.neg_nonneg_cases z) as [Hneg | Hpos].
  - assert (Hm : z mod 2 ^ 32 = z + 2 ^ 32).
    { symmetry. apply (Z.mod_unique _ _ (-1)); lia. }
    rewrite Hm. rewrite bool_decide_eq_true_2 by lia. lia.
  - rewrite Z.mod_small by lia. rewrite bool_decide_eq_false_2 by lia. reflexivity.
Qed.

Lemma land_even_odd (a b : Z) : Z.land (2 * a) (2 * b + 1) = 2 * Z.land a b.
Proof.
  apply Z.bits_inj'. intros n Hn.
  rewrite Z.land_spec.
  destruct (Z.eq_dec n 0) as [-> | Hne].
  - rewrite Z.testbit_even_0, Z.testbit_even_0. reflexivity.
  - replace n with (Z.succ (n - 1)) by lia.
    rewrite Z.testbit_even_succ, Z.testbit_odd_succ, Z.testbit_even_succ by lia.
    symmetry. apply Z.land_spec.
Qed.

Lemma land_odd_even (a b : Z) : Z.land (2 * a + 1) (2 * b) = 2 * Z.land a b.
Proof. rewrite Z.land_comm, land_even_odd, Z.land_comm. reflexivity. Qed.

Lemma power_of_two_double (z : Z) : 0 < z -> power_of_two (2 * z) <-> power_of_two z.
Proof.
  intros Hz. split.
  - intros [k [Hk E]].
    destruct (Z.eq_dec k 0) as [-> | Hne]; [simpl in E; lia |].
    exists (k - 1). split; [lia |].
    replace k with (Z.succ (k - 1)) in E by lia.
    rewrite Z.pow_succ_r in E by lia. lia.
  - intros [k [Hk E]]. exists (Z.succ k). split; [lia |].
    rewrite Z.pow_succ_r by lia. lia.
Qed.

Lemma power_of_two_odd (z : Z) : 0 < z -> ¬ power_of_two (2 * z + 1).
Proof.
  intros Hz [k [Hk E]].
  destruct (Z.eq_dec k 0) as [-> | Hne]; [simpl in E; lia |].
  replace k with (Z.succ (k - 1)) in E by lia.
  rewrite Z.pow_succ_r in E by lia. lia.
Qed.

Lemma power_of_two_pos (z : Z) : power_of_two z -> 0 < z.
Proof. intros [k [Hk ->]]. apply Z.pow_pos_nonneg; lia. Qed.

(** The bit trick on its own: for a positive integer, clearing the lowest
    set bit leaves nothing exactly for the powers of two. *)
Lemma land_pred_power_of_two (p : positive) :
  Z.land (Z.pos p) (Z.pos p - 1) = 0 <-> power_of_two (Z.pos p).
Proof.
  induction p as [q IH | q IH |].
  - replace (Z.pos q~1) with (2 * Z.pos q + 1) by lia.
    replace (2 * Z.pos q + 1 - 1) with (2 * Z.pos q) by lia.
    rewrite land_odd_even, Z.land_diag. split.
    + lia.
    + intros H. exfalso. revert H. apply power_of_two_odd. lia.
  - replace (Z.pos q~0) with (2 * Z.pos q) by lia.
    replace (2 * Z.pos q - 1) with (2 * (Z.pos q - 1) + 1) by lia.
    rewrite land_even_odd, power_of_two_double by lia.
    rewrite <- IH. lia.
  - split; [| reflexivity]. intros _. exists 0. split; [lia | reflexivity].
Qed.

(** On the sizes an image can have and a power of two can be checked
    for, the source's check is exact. *)
Lemma isPowerOf2_positive (value : Z) :
  0 < value < 2 ^ 31 -> isPowerOf2 value = true <-> power_of_two value.
Proof.
  intros Hv. unfold isPowerOf2.
  rewrite !ToInt32_small by lia.
  rewrite bool_decide_eq_true.
  destruct value as [| p | p]; try lia.
  apply land_pred_power_of_two.
Qed.

(** C1, the listed values: the check answers [true] on 1, 2, 4, 8, 256 and
    1024 and [false] on 3, 5, 1023 and 1025; on 0, which is not a power of
    two, it answers [true] where the specification wants [false]. *)
Theorem isPowerOf2_listed_values :
  Forall (λ v, isPowerOf2 v = true) [1; 2; 4; 8; 256; 1024]
  ∧ Forall (λ v, isPowerOf2 v = false) [3; 5; 1023; 1025]
  ∧ isPowerOf2 0 = true
  ∧ ¬ power_of_two 0.
Proof.
  split; [| split; [| split]].
  - repeat constructor.
  - repeat constructor.
  - reflexivity.
  - intros H. apply power_of_two_pos in H. lia.
Qed.

(** ** The completion callback of a texture load *)

Lemma loadTexture_onload_run (σ : world) (t : N) (o : texture_obj) (img : image_data) :
  gl_textures (gl σ) !! t = Some o ->
  loadTexture_onload t img σ =
    (Return tt,
     set_gl (λ g, set_texture_2d (Some t)
                    (set_textures <[t := loaded_texture o img]> g)) σ).
Proof.
  intros Ht. unfold loadTexture_onload, loaded_texture.
  destruct (isPowerOf2 (width img) && isPowerOf2 (height img)).
  all: cbv [mbind JS_bind gl_.bindTexture gl_.texImage2D gl_.generateMipmap
            gl_.texParameteri gl_.on_bound modify set_gl set_texture_2d set_textures
            gl gl_texture_2d gl_textures gl_shaders gl_compiler arrays images console
            innerWidth clock].
  all: destruct σ as [ar [sh tx b cp] im co iw ck]; simpl in *.
  all: repeat f_equal.
  all: rewrite !alter_alter_eq; rewrite (alter_alt_Some _ _ _ _ Ht); reflexivity.
Qed.

(** For an image of positive size the callback does what the policy says:
    mipmaps for two powers of two; otherwise none, both wraps clamped to
    the edge and a linear minification filter. *)
Lemma loadTexture_onload_positive (σ : world) (t : N) (o : texture_obj) (img : image_data) :
  gl_textures (gl σ) !! t = Some o ->
  0 < width img < 2 ^ 31 ->
  0 < height img < 2 ^ 31 ->
  ∃ σ' o',
    loadTexture_onload t img σ = (Return tt, σ')
    ∧ gl_textures (gl σ') !! t = Some o'
    ∧ tex_image o' = Some img
    ∧ (power_of_two (width img) ∧ power_of_two (height img) ->
       tex_mipmap o' = true)
    ∧ (¬ (power_of_two (width img) ∧ power_of_two (height img)) ->
       tex_mipmap o' = tex_mipmap o
       ∧ tex_wrap_s o' = CLAMP_TO_EDGE
       ∧ tex_wrap_t o' = CLAMP_TO_EDGE
       ∧ tex_min_filter o' = LINEAR).
Proof.
  intros Ht Hw Hh.
  eexists _, (loaded_texture o img).
  split; [apply (loadTexture_onload_run _ _ _ _ Ht) |].
  split; [simpl; apply lookup_insert_eq |].
  pose proof (isPowerOf2_positive _ Hw) as Ew.
  pose proof (isPowerOf2_positive _ Hh) as Eh.
  unfold loaded_texture.
  destruct (isPowerOf2 (width img)), (isPowerOf2 (height img)); simpl.
  all: split; [reflexivity |]; split.
  all: try (intros _; reflexivity).
  all: try (intros _; repeat split; reflexivity).
  - intros Hn. exfalso. apply Hn. split; [apply Ew | apply Eh]; reflexivity.
  - intros [_ Hp]. apply Eh in Hp. discriminate Hp.
  - intros [Hp _]. apply Ew in Hp. discriminate Hp.
  - intros [Hp _]. apply Ew in Hp. discriminate Hp.
Qed.

(** C8, at an image without width: 0 is not a power of two, and yet the
    callback generates mipmaps for a 0 x 256 image and leaves the wrap
    modes and the filter of the new texture as they were. *)
Theorem loadTexture_onload_zero_width :
  ¬ (power_of_two 0 ∧ power_of_two 256)
  ∧ (let '(_, σ) :=
       (texture ← loadTexture "assets/images/image-1.webp";
        loadTexture_onload texture (ImageData 0 256)) page in
     gl_textures (gl σ) !! 0%N =
       Some (TextureObj (Some (ImageData 0 256)) true
               REPEAT REPEAT NEAREST_MIPMAP_LINEAR)).
Proof.
  split.
  - intros [H _]. apply power_of_two_pos in H. lia.
  - vm_compute. reflexivity.
Qed.

(** ** [repeat] *)

Lemma bind_return {A B : Type} (m : JS A) (f : A -> JS B) (σ σ' : world) (a : A) :
  m σ = (Return a, σ') -> (m ≫= f) σ = f a σ'.
Proof. intros H. unfold mbind, JS_bind. rewrite H. reflexivity. Qed.

Lemma bind_throw {A B : Type} (m : JS A) (f : A -> JS B) (σ σ' : world) (e : error) :
  m σ = (Throw e, σ') -> (m ≫= f) σ = (Throw e, σ').
Proof. intros H. unfold mbind, JS_bind. rewrite H. reflexivity. Qed.

Lemma only_allocates_refl (σ : world) : only_allocates σ σ.
Proof. unfold only_allocates. split; [done | auto]. Qed.

Lemma only_allocates_trans (σ1 σ2 σ3 : world) :
  only_allocates σ1 σ2 -> only_allocates σ2 σ3 -> only_allocates σ1 σ3.
Proof.
  unfold only_allocates.
  intros (H1 & -> & -> & -> & -> & ->) (H2 & -> & -> & -> & -> & ->).
  split; [etrans; eassumption | auto].
Qed.

Lemma only_allocates_lookup (σ σ' : world) (a : N) (l : list elem) :
  only_allocates σ σ' -> arrays σ !! a = Some l -> arrays σ' !! a = Some l.
Proof. intros [H _] Ha. exact (lookup_weaken _ _ _ _ Ha H). Qed.

Lemma only_allocates_fresh (σ σ' : world) (a : N) :
  only_allocates σ σ' -> arrays σ' !! a = None -> arrays σ !! a = None.
Proof. intros [H _] Ha. exact (lookup_weaken_None _ _ _ Ha H). Qed.

Lemma alloc_run (l : list elem) (σ : world) :
  ∃ a σ',
    Array.alloc l σ = (Return a, σ')
    ∧ arrays σ !! a = None
    ∧ arrays σ' !! a = Some l
    ∧ only_allocates σ σ'.
Proof.
  eexists _, _. split; [reflexivity |].
  assert (Hf : arrays σ !! fresh (dom (arrays σ)) = None).
  { apply not_elem_of_dom. apply is_fresh. }
  split; [exact Hf |].
  split; [apply lookup_insert_eq |].
  unfold only_allocates. simpl. split; [| auto].
  apply insert_subseteq. exact Hf.
Qed.

Lemma read_run (a : N) (l : list elem) (σ : world) :
  arrays σ !! a = Some l -> Array.read a σ = (Return l, σ).
Proof. intros H. unfold Array.read. rewrite H. reflexivity. Qed.

Lemma concat_run (a b : N) (la lb : list elem) (σ : world) :
  arrays σ !! a = Some la ->
  arrays σ !! b = Some lb ->
  Array.concat a b σ =
    if bool_decide (Z.of_nat (length (la ++ lb)) <= Array.max_length)
    then Array.alloc (la ++ lb) σ
    else (Throw RangeError, σ).
Proof.
  intros Ha Hb. unfold Array.concat.
  rewrite (bind_return _ _ _ _ _ (read_run _ _ _ Ha)).
  rewrite (bind_return _ _ _ _ _ (read_run _ _ _ Hb)).
  destruct (bool_decide _); reflexivity.
Qed.

Lemma concat_times_length {A : Type} (n : nat) (p : list A) :
  length (concat_times n p) = (n * length p)%nat.
Proof.
  unfold concat_times. induction n as [| n IH]; simpl; [reflexivity |].
  rewrite length_app, IH. reflexivity.
Qed.

Lemma concat_times_snoc {A : Type} (n : nat) (p : list A) :
  concat_times n p ++ p = concat_times (S n) p.
Proof.
  unfold concat_times. induction n as [| n IH]; simpl.
  - rewrite app_nil_r. reflexivity.
  - rewrite <- app_assoc. simpl in IH. rewrite IH. reflexivity.
Qed.

(** The order of the elements: copy [i] of the pattern starts at index
    [i * length p]. *)
Lemma concat_times_lookup {A : Type} (n : nat) (p : list A) (i j : nat) :
  (i < n)%nat -> (j < length p)%nat ->
  concat_times n p !! (i * length p + j)%nat = p !! j.
Proof.
  revert i. induction n as [| n IH]; intros i Hi Hj; [lia |].
  unfold concat_times in *. simpl.
  destruct i as [| i]; simpl.
  - apply lookup_app_l. exact Hj.
  - rewrite lookup_app_r by lia.
    replace (length p + i * length p + j - length p)%nat with (i * length p + j)%nat by lia.
    apply IH; lia.
Qed.

Section RepeatLoop.
Variables (pattern : N) (p : list elem).

Let callback : N -> JS N := λ sum, Array.concat sum pattern.

(** [m] more rounds of the reduction, from an accumulator that holds
    [k] copies, when the final length fits an array. *)
Lemma reduce_loop_returns (m : nat) :
  ∀ (k : nat) (acc : N) (σ : world),
    arrays σ !! pattern = Some p ->
    arrays σ !! acc = Some (concat_times k p) ->
    Z.of_nat ((k + m) * length p) <= Array.max_length ->
    ∃ r σ',
      Array.reduce_loop callback (replicate m (Some VUndefined)) acc σ = (Return r, σ')
      ∧ arrays σ' !! r = Some (concat_times (k + m) p)
      ∧ (r = acc ∨ arrays σ !! r = None)
      ∧ only_allocates σ σ'.
Proof.
  induction m as [| m IH]; intros k acc σ Hp Hacc Hlen.
  - exists acc, σ. simpl. rewrite Nat.add_0_r.
    repeat split; [exact Hacc | left; reflexivity | apply only_allocates_refl].
  - simpl. unfold callback at 1.
    destruct (alloc_run (concat_times k p ++ p) σ) as (a & σ1 & Ha & Hfresh & Hnew & Hext).
    assert (Hc : Array.concat acc pattern σ = (Return a, σ1)).
    { rewrite (concat_run _ _ _ _ _ Hacc Hp).
      rewrite bool_decide_eq_true_2; [exact Ha |].
      rewrite length_app, concat_times_length. lia. }
    rewrite (bind_return _ _ _ _ _ Hc).
    rewrite concat_times_snoc in Hnew.
    destruct (IH (S k) a σ1) as (r & σ' & Hrun & Hr & Hor & Hext').
    + exact (only_allocates_lookup _ _ _ _ Hext Hp).
    + exact Hnew.
    + replace (S k + m)%nat with (k + S m)%nat by lia. exact Hlen.
    + exists r, σ'. split; [exact Hrun |].
      replace (k + S m)%nat with (S k + m)%nat by lia.
      split; [exact Hr |].
      split; [| exact (only_allocates_trans _ _ _ Hext Hext')].
      right. destruct Hor as [-> | Hnone]; [exact Hfresh |].
      exact (only_allocates_fresh _ _ _ Hext Hnone).
Qed.

(** The reduction stops with a [RangeError] at the first round whose
    array would be too long. *)
Lemma reduce_loop_throws (m : nat) :
  ∀ (k : nat) (acc : N) (σ : world),
    arrays σ !! pattern = Some p ->
    arrays σ !! acc = Some (concat_times k p) ->
    Array.max_length < Z.of_nat ((k + m) * length p) ->
    Z.of_nat (k * length p) <= Array.max_length ->
    ∃ σ',
      Array.reduce_loop callback (replicate m (Some VUndefined)) acc σ = (Throw RangeError, σ')
      ∧ only_allocates σ σ'.
Proof.
  induction m as [| m IH]; intros k acc σ Hp Hacc Hlong Hk.
  - rewrite Nat.add_0_r in Hlong. lia.
  - simpl. unfold callback at 1.
    pose proof (concat_run _ _ _ _ σ Hacc Hp) as Hc.
    rewrite length_app, concat_times_length in Hc.
    destruct (decide (Z.of_nat (k * length p + length p) <= Array.max_length)) as [Hfit | Hfull].
    + rewrite bool_decide_eq_true_2 in Hc by exact Hfit.
      destruct (alloc_run (concat_times k p ++ p) σ) as (a & σ1 & Ha & Hfresh & Hnew & Hext).
      rewrite Ha in Hc.
      rewrite (bind_return _ _ _ _ _ Hc).
      rewrite concat_times_snoc in Hnew.
      destruct (IH (S k) a σ1) as (σ' & Hrun & Hext').
      * exact (only_allocates_lookup _ _ _ _ Hext Hp).
      * exact Hnew.
      * replace (S k + m)%nat with (k + S m)%nat by lia. exact Hlong.
      * simpl. lia.
      * exists σ'. split; [exact Hrun |].
        exact (only_allocates_trans _ _ _ Hext Hext').
    + rewrite bool_decide_eq_false_2 in Hc by exact Hfull.
      exists σ. rewrite (bind_throw _ _ _ _ _ Hc).
      split; [reflexivity | apply only_allocates_refl].
Qed.

End RepeatLoop.

(** What [repeat] does on every integer [n] and every array [pattern]. *)
Lemma repeat_run (σ : world) (n : Z) (pattern : N) (p : list elem) :
  arrays σ !! pattern = Some p ->
  (0 <= n <= Array.max_length
   ∧ n * Z.of_nat (length p) <= Array.max_length
   ∧ ∃ r σ',
       repeat n pattern σ = (Return r, σ')
       ∧ arrays σ' !! r = Some (concat_times (Z.to_nat n) p)
       ∧ arrays σ !! r = None
       ∧ only_allocates σ σ')
  ∨ ((n < 0 ∨ Array.max_length < n ∨ Array.max_length < n * Z.of_nat (length p))
     ∧ ∃ σ',
         repeat n pattern σ = (Throw RangeError, σ')
         ∧ only_allocates σ σ').
Proof.
  intros Hp. unfold repeat, Array.create.
  destruct (decide (0 <= n <= Array.max_length)) as [Hn | Hn].
  - rewrite bool_decide_eq_true_2 by exact Hn.
    destruct (alloc_run (replicate (Z.to_nat n) None) σ)
      as (a1 & σ1 & Ha1 & _ & Hnew1 & Hext1).
    rewrite (bind_return _ _ _ _ _ Ha1).
    destruct (alloc_run ((λ x : elem, Some (default VUndefined x))
                           <$> replicate (Z.to_nat n) None) σ1)
      as (a2 & σ2 & Ha2 & _ & Hnew2 & Hext2).
    assert (Hs : Array.spread a1 σ1 = (Return a2, σ2)).
    { unfold Array.spread. rewrite (bind_return _ _ _ _ _ (read_run _ _ _ Hnew1)).
      exact Ha2. }
    rewrite (bind_return _ _ _ _ _ Hs).
    rewrite fmap_replicate in Hnew2. simpl in Hnew2.
    destruct (alloc_run [] σ2) as (a3 & σ3 & Ha3 & Hfresh3 & Hnew3 & Hext3).
    rewrite (bind_return _ _ _ _ _ Ha3).
    unfold Array.reduce.
    rewrite (bind_return _ _ _ _ _
               (read_run _ _ _ (only_allocates_lookup _ _ _ _ Hext3 Hnew2))).
    pose proof (only_allocates_trans _ _ _ Hext1
                  (only_allocates_trans _ _ _ Hext2 Hext3)) as Hext.
    pose proof (only_allocates_lookup _ _ _ _ Hext Hp) as Hp3.
    destruct (decide (n * Z.of_nat (length p) <= Array.max_length)) as [Hfit | Hfull].
    + left. split; [exact Hn |]. split; [exact Hfit |].
      destruct (reduce_loop_returns pattern p (Z.to_nat n) 0 a3 σ3 Hp3 Hnew3)
        as (r & σ' & Hrun & Hr & Hor & Hext').
      { simpl. lia. }
      exists r, σ'. split; [exact Hrun |].
      split; [exact Hr |].
      split; [| exact (only_allocates_trans _ _ _ Hext Hext')].
      apply (only_allocates_fresh _ _ _ (only_allocates_trans _ _ _ Hext1 Hext2)).
      destruct Hor as [-> | Hnone]; [exact Hfresh3 |].
      exact (only_allocates_fresh _ _ _ Hext3 Hnone).
    + right. split; [right; right; lia |].
      destruct (reduce_loop_throws pattern p (Z.to_nat n) 0 a3 σ3 Hp3 Hnew3)
        as (σ' & Hrun & Hext').
      { simpl. lia. }
      { simpl. unfold Array.max_length. lia. }
      exists σ'. split; [exact Hrun |].
      exact (only_allocates_trans _ _ _ Hext Hext').
  - rewrite bool_decide_eq_false_2 by exact Hn.
    right. split; [lia |].
    exists σ. split; [reflexivity | apply only_allocates_refl].
Qed.

(** The scenario of the specification: [repeat(2, [1, 2])] is
    [[1, 2, 1, 2]], in a new array. *)
Example repeat_2_of_1_2 :
  let pattern := [Some (VNum 1); Some (VNum 2)] in
  let run := repeat 2 0%N (page_with pattern) in
  ∃ r : N,
    fst run = Return r
    ∧ r ≠ 0%N
    ∧ arrays (snd run) !! r = Some (pattern ++ pattern)
    ∧ arrays (snd run) !! 0%N = Some pattern.
Proof. exists 5%N. vm_compute. repeat split. discriminate. Qed.

(** C4, amended by the bounds of array lengths: for every integer [n] from
    0 to [2^32 - 1] and every pattern [p], empty or not, whose [n] copies
    fit an array, [repeat] returns a new array that holds [p] concatenated
    [n] times, copy after copy in the order of [p], of length
    [n * length p], and empty for [n = 0]; it changes no array that was
    there before and nothing else of the world. *)
Theorem repeat_concatenates (σ : world) (n : Z) (pattern : N) (p : list elem) :
  arrays σ !! pattern = Some p ->
  0 <= n <= Array.max_length ->
  n * Z.of_nat (length p) <= Array.max_length ->
  ∃ r σ',
    repeat n pattern σ = (Return r, σ')
    ∧ arrays σ' !! r = Some (concat_times (Z.to_nat n) p)
    ∧ (∀ i j : nat, (i < Z.to_nat n)%nat -> (j < length p)%nat ->
         concat_times (Z.to_nat n) p !! (i * length p + j)%nat = p !! j)
    ∧ Z.of_nat (length (concat_times (Z.to_nat n) p)) = n * Z.of_nat (length p)
    ∧ (n = 0 -> arrays σ' !! r = Some [])
    ∧ arrays σ !! r = None
    ∧ only_allocates σ σ'.
Proof.
  intros Hp Hn Hfit.
  destruct (repeat_run σ n pattern p Hp)
    as [(_ & _ & r & σ' & Hrun & Hr & Hfresh & Hext) | [Hbad _]]; [| lia].
  exists r, σ'. split; [exact Hrun |]. split; [exact Hr |].
  split; [intros i j; apply concat_times_lookup |].
  split; [rewrite concat_times_length; lia |].
  split; [| split; [exact Hfresh | exact Hext]].
  intros ->. exact Hr.
Qed.

Lemma repeat_concatenates_witness :
  ∃ r σ',
    repeat 2 0%N (page_with uv_literal) = (Return r, σ')
    ∧ arrays σ' !! r = Some (uv_literal ++ uv_literal)
    ∧ only_allocates (page_with uv_literal) σ'.
Proof.
  destruct (repeat_concatenates (page_with uv_literal) 2 0%N uv_literal)
    as (r & σ' & Hrun & Hr & _ & _ & _ & _ & Hext).
  - reflexivity.
  - unfold Array.max_length. lia.
  - unfold Array.max_length. simpl. lia.
  - exists r, σ'. split; [exact Hrun |]. split; [| exact Hext].
    rewrite Hr. reflexivity.
Defined.

(** C4 as stated fails at [n = 2^32], even for the empty pattern: no array
    has that many holes, and [repeat] throws. *)
Lemma repeat_4294967296_empty_throws :
  0 <= 4294967296
  ∧ arrays (page_with []) !! 0%N = Some []
  ∧ repeat 4294967296 0%N (page_with []) = (Throw RangeError, page_with []).
Proof. split; [lia |]. split; reflexivity. Qed.

(** The other bound: 65536 copies of a pattern of 65536 elements would
    make an array of [2^32] elements, and the last [concat] throws. *)
Example repeat_65536_of_65536_throws :
  ∃ σ', repeat 65536 0%N (page_with (replicate (Z.to_nat 65536) None)) = (Throw RangeError, σ').
Proof.
  destruct (repeat_run (page_with (replicate (Z.to_nat 65536) None)) 65536 0%N (replicate (Z.to_nat 65536) None))
    as [(_ & Hfit & _) | (_ & σ' & Hrun & _)].
  - apply lookup_insert_eq.
  - rewrite length_replicate in Hfit. unfold Array.max_length in Hfit. lia.
  - exists σ'. exact Hrun.
Qed.

(** C10, amended by the upper bound of array lengths: [repeat] throws for
    every negative [n]; it throws exactly when [n] is negative, or exceeds
    [2^32 - 1], or the [n] copies of the pattern exceed [2^32 - 1]
    elements; and what it throws is a [RangeError]. *)
Theorem repeat_throws_iff (σ : world) (n : Z) (pattern : N) (p : list elem) :
  arrays σ !! pattern = Some p ->
  (n < 0 -> ∃ σ', repeat n pattern σ = (Throw RangeError, σ'))
  ∧ ((∃ e σ', repeat n pattern σ = (Throw e, σ'))
     <-> n < 0 ∨ Array.max_length < n ∨ Array.max_length < n * Z.of_nat (length p))
  ∧ (∀ e σ', repeat n pattern σ = (Throw e, σ') -> e = RangeError).
Proof.
  intros Hp.
  destruct (repeat_run σ n pattern p Hp)
    as [(Hn & Hfit & r & σ' & Hrun & _) | (Hbad & σ' & Hrun & _)].
  - split; [lia |]. split.
    + split; [| lia]. intros (e & σ'' & Hthrow). congruence.
    + intros e σ'' Hthrow. congruence.
  - split; [intros _; exists σ'; exact Hrun |]. split.
    + split; [intros _; exact Hbad |]. intros _. exists RangeError, σ'. exact Hrun.
    + intros e σ'' Hthrow. congruence.
Qed.

Lemma repeat_throws_iff_witness :
  ∃ σ', repeat (-1) 0%N (page_with uv_literal) = (Throw RangeError, σ').
Proof.
  destruct (repeat_throws_iff (page_with uv_literal) (-1) 0%N uv_literal) as [H _].
  - reflexivity.
  - apply H. lia.
Defined.

(** C10 as stated fails at [n = 2^32]: not negative, and [repeat] throws. *)
Lemma repeat_4294967296_throws :
  ¬ (4294967296 < 0)
  ∧ arrays (page_with uv_literal) !! 0%N = Some uv_literal
  ∧ repeat 4294967296 0%N (page_with uv_literal) = (Throw RangeError, page_with uv_literal).
Proof. split; [lia |]. split; reflexivity. Qed.

(** ** [createShader] *)

(** C7: [createShader] never throws.  When the driver compiles the source
    it returns the handle of the new shader, which holds that source with a
    compile status of [true].  When the driver rejects the source it logs
    the info log of the shader on the console, deletes the shader, so that
    the table of shaders is what it was, and returns [undefined]. *)
Theorem createShader_spec (σ : world) (type : shader_type) (source : string) :
  ∃ (shader : N) (σ' : world),
    gl_shaders (gl σ) !! shader = None
    ∧ (∀ e σ'', createShader type source σ ≠ (Throw e, σ''))
    ∧ match gl_compiler (gl σ) type source with
      | (true, log) =>
          createShader type source σ = (Return (VShader shader), σ')
          ∧ gl_shaders (gl σ') =
              <[shader := ShaderObj type source true log]> (gl_shaders (gl σ))
          ∧ console σ' = console σ
      | (false, log) =>
          createShader type source σ = (Return VUndefined, σ')
          ∧ console σ' = console σ ++ [[VStr log]]
          ∧ gl_shaders (gl σ') !! shader = None
          ∧ gl_shaders (gl σ') = gl_shaders (gl σ)
      end.
Proof.
  pose (h := fresh (dom (gl_shaders (gl σ)))).
  assert (Hf : gl_shaders (gl σ) !! h = None).
  { apply not_elem_of_dom. apply is_fresh. }
  destruct σ as [ar [sh tx b cp] im co iw ck]; simpl in *.
  destruct (cp type source) as [status log] eqn:Hc.
  cbv [createShader gl_.createShader gl_.shaderSource gl_.compileShader
       gl_.getShaderParameter_COMPILE_STATUS gl_.getShaderInfoLog gl_.deleteShader
       console_.log mbind JS_bind mret JS_ret modify gets set_gl set_shaders set_console
       gl gl_texture_2d gl_textures gl_shaders gl_compiler arrays images console
       innerWidth clock].
  fold h.
  rewrite !alter_insert_eq. cbn [sh_type sh_source sh_compile_status sh_info_log].
  rewrite Hc, !lookup_insert_eq. cbn [fmap option_fmap option_map default sh_compile_status].
  exists h. destruct status.
  - eexists. split; [exact Hf |]. split; [intros e σ''; discriminate |].
    split; [reflexivity |]. split; reflexivity.
  - eexists. split; [exact Hf |]. split; [intros e σ''; discriminate |].
    split; [reflexivity |]. cbn.
    rewrite lookup_insert_eq. cbn.
    split; [reflexivity |].
    rewrite (delete_insert_id _ _ _ Hf). split; [exact Hf | reflexivity].
Qed.

(** On the page: a source that the driver accepts, and one it rejects. *)
Example createShader_accepted :
  let run := createShader FRAGMENT_SHADER "void main() {}" page in
  fst run = Return (VShader 0%N)
  ∧ gl_shaders (gl (snd run)) !! 0%N =
      Some (ShaderObj FRAGMENT_SHADER "void main() {}" true "")
  ∧ console (snd run) = [].
Proof. vm_compute. repeat split. Qed.

Example createShader_rejected :
  let run := createShader VERTEX_SHADER "" page in
  fst run = Return VUndefined
  ∧ gl_shaders (gl (snd run)) !! 0%N = None
  ∧ console (snd run) = [[VStr "ERROR: no main"]].
Proof. vm_compute. repeat split. Qed.

(** ** Round-to-nearest-even on the binary64 grid *)

Section Binary64Facts.
Import Binary64.
Local Open Scope Q_scope.

Lemma pow2_pos (e : Z) : 0 < pow2 e.
Proof. apply Qpower_0_lt. reflexivity. Qed.

Lemma pow2_add (a b : Z) : pow2 (a + b) == pow2 a * pow2 b.
Proof. apply Qpower_plus. discriminate. Qed.

Lemma pow2_le (a b : Z) : (a <= b)%Z -> pow2 a <= pow2 b.
Proof. intros H. apply Qpower_le_compat_l; [exact H | discriminate]. Qed.

Lemma pow2_inject (n : Z) : (0 <= n)%Z -> pow2 n == inject_Z (2 ^ n).
Proof. intros H. symmetry. apply (Zpower_Qpower 2 n H). Qed.

Lemma pow2_sub (a b : Z) : pow2 (a - b) * pow2 b == pow2 a.
Proof. rewrite <- pow2_add. replace (a - b + b)%Z with a by lia. reflexivity. Qed.

Lemma div_pow2 (x : Q) (e : Z) : x / pow2 e * pow2 e == x.
Proof. field. pose proof (pow2_pos e). lra. Qed.

Lemma ilog2_spec (x : Q) : 0 < x -> pow2 (ilog2 x) <= x /\ x < pow2 (ilog2 x + 1).
Proof.
  intros Hx. destruct x as [n d].
  assert (Hn : (0 < n)%Z).
  { unfold Qlt in Hx. simpl in Hx. lia. }
  unfold ilog2. simpl Qnum. simpl Qden.
  set (a := Z.log2 n). set (b := Z.log2 (Z.pos d)).
  destruct (Z.log2_spec n Hn) as [Ha1 Ha2]. fold a in Ha1, Ha2.
  destruct (Z.log2_spec (Z.pos d) ltac:(lia)) as [Hb1 Hb2]. fold b in Hb1, Hb2.
  assert (Ha0 : (0 <= a)%Z) by apply Z.log2_nonneg.
  assert (Hb0 : (0 <= b)%Z) by apply Z.log2_nonneg.
  assert (Ex : n # d == inject_Z n / inject_Z (Z.pos d)) by apply Qmake_Qdiv.
  assert (Hd : 0 < inject_Z (Z.pos d)) by (unfold Qlt; simpl; lia).
  assert (Exd : (n # d) * inject_Z (Z.pos d) == inject_Z n).
  { rewrite Ex. field. lra. }
  (* integer facts as rationals *)
  assert (Qa1 : pow2 a <= inject_Z n).
  { rewrite pow2_inject by lia. rewrite <- Zle_Qle. exact Ha1. }
  assert (Qa2 : inject_Z n < pow2 (a + 1)).
  { rewrite pow2_inject by lia. rewrite <- Zlt_Qlt. exact Ha2. }
  assert (Qb1 : pow2 b <= inject_Z (Z.pos d)).
  { rewrite pow2_inject by lia. rewrite <- Zle_Qle. exact Hb1. }
  assert (Qb2 : inject_Z (Z.pos d) < pow2 (b + 1)).
  { rewrite pow2_inject by lia. rewrite <- Zlt_Qlt. exact Hb2. }
  pose proof (pow2_pos b) as Pb. pose proof (pow2_pos (b + 1)) as Pb1.
  pose proof (pow2_pos (a - b - 1)) as Pk1. pose proof (pow2_pos (a - b + 1)) as Pk2.
  assert (Lo : pow2 (a - b - 1) <= n # d).
  { pose proof (pow2_sub a (b + 1)) as E.
    replace (a - (b + 1))%Z with (a - b - 1)%Z in E by lia.
    apply Qnot_lt_le. intros Hc. nra. }
  assert (Hi : n # d < pow2 (a - b + 1)).
  { pose proof (pow2_sub (a + 1) b) as E.
    replace (a + 1 - b)%Z with (a - b + 1)%Z in E by lia.
    apply Qnot_le_lt. intros Hc. nra. }
  destruct (Qle_bool (pow2 (a - b)) (n # d)) eqn:Hc.
  - apply Qle_bool_iff in Hc. split; [exact Hc | exact Hi].
  - split.
    + exact Lo.
    + replace (a - b - 1 + 1)%Z with (a - b)%Z by lia.
      apply Qnot_le_lt. intros Hle. apply Qle_bool_iff in Hle. congruence.
Qed.

Lemma ilog2_monotone (x y : Q) : 0 < x -> x <= y -> (ilog2 x <= ilog2 y)%Z.
Proof.
  intros Hx Hxy.
  destruct (ilog2_spec x Hx) as [Lx _].
  destruct (ilog2_spec y ltac:(lra)) as [_ Uy].
  destruct (Z_le_gt_dec (ilog2 x) (ilog2 y)) as [H | H]; [exact H |].
  pose proof (pow2_le (ilog2 y + 1) (ilog2 x) ltac:(lia)). lra.
Qed.

Lemma round_even_cases (x : Q) :
  (x - inject_Z (Qfloor x) < 1 # 2 /\ round_even x = Qfloor x)
  \/ (1 # 2 < x - inject_Z (Qfloor x) /\ round_even x = (Qfloor x + 1)%Z)
  \/ (x - inject_Z (Qfloor x) == 1 # 2
      /\ round_even x = if Z.even (Qfloor x) then Qfloor x else (Qfloor x + 1)%Z).
Proof.
  unfold round_even. cbv zeta.
  destruct (Qcompare_spec (x - inject_Z (Qfloor x)) (1 # 2)) as [E | L | G].
  - right. right. split; [exact E | reflexivity].
  - left. split; [exact L | reflexivity].
  - right. left. split; [exact G | reflexivity].
Qed.

Lemma floor_bounds (x : Q) : inject_Z (Qfloor x) <= x /\ x < inject_Z (Qfloor x) + 1.
Proof.
  split; [apply Qfloor_le |].
  pose proof (Qlt_floor x) as H. rewrite inject_Z_plus in H. exact H.
Qed.

Lemma round_even_monotone (x y : Q) : x <= y -> (round_even x <= round_even y)%Z.
Proof.
  intros Hxy.
  pose proof (Qfloor_resp_le _ _ Hxy) as Hf.
  destruct (floor_bounds x) as [Lx Ux]. destruct (floor_bounds y) as [Ly Uy].
  destruct (Z.eq_dec (Qfloor x) (Qfloor y)) as [E | Hne].
  - destruct (round_even_cases x) as [[Cx ->] | [[Cx ->] | [Cx ->]]];
    destruct (round_even_cases y) as [[Cy ->] | [[Cy ->] | [Cy ->]]];
    rewrite <- ?E in *; try destruct (Z.even (Qfloor x)); try lia; exfalso; lra.
  - destruct (round_even_cases x) as [[Cx ->] | [[Cx ->] | [Cx ->]]];
    destruct (round_even_cases y) as [[Cy ->] | [[Cy ->] | [Cy ->]]];
    try destruct (Z.even (Qfloor x)); try destruct (Z.even (Qfloor y)); lia.
Qed.

Lemma round_even_integer (x : Q) (z : Z) : x == inject_Z z -> round_even x = z.
Proof.
  intros E.
  assert (Hf : Qfloor x = z) by (rewrite E; apply Qfloor_Z).
  destruct (round_even_cases x) as [[Cx ->] | [[Cx ->] | [Cx ->]]];
    rewrite Hf in *; try reflexivity; exfalso; lra.
Qed.

Lemma round_even_ge (x : Q) (z : Z) : inject_Z z <= x -> (z <= round_even x)%Z.
Proof.
  intros H. pose proof (round_even_monotone _ _ H) as M.
  rewrite (round_even_integer (inject_Z z) z) in M by reflexivity. exact M.
Qed.

Lemma round_even_le (x : Q) (z : Z) : x <= inject_Z z -> (round_even x <= z)%Z.
Proof.
  intros H. pose proof (round_even_monotone _ _ H) as M.
  rewrite (round_even_integer (inject_Z z) z) in M by reflexivity. exact M.
Qed.

Lemma binade_monotone (x y : Q) : 0 < x -> x <= y -> (binade x <= binade y)%Z.
Proof. intros Hx Hxy. unfold binade. pose proof (ilog2_monotone x y Hx Hxy). lia. Qed.

(** A positive number rounds into the closure of its binade. *)
Lemma round_pos_upper (x : Q) : 0 < x -> round_pos x <= pow2 (binade x + 1).
Proof.
  intros Hx. unfold round_pos. cbv zeta.
  set (c := binade x).
  destruct (ilog2_spec x Hx) as [_ Ux].
  assert (Hc : x < pow2 (c + 1)).
  { eapply Qlt_le_trans; [exact Ux |]. apply pow2_le. unfold c, binade. lia. }
  assert (E : pow2 (c + 1) == inject_Z (2 ^ 53) * pow2 (c - 52)).
  { rewrite <- pow2_inject by lia. rewrite <- pow2_add.
    replace (53 + (c - 52))%Z with (c + 1)%Z by lia. reflexivity. }
  pose proof (pow2_pos (c - 52)) as P.
  assert (Hs : x / pow2 (c - 52) <= inject_Z (2 ^ 53)).
  { apply Qle_shift_div_r; [exact P |]. rewrite <- E. lra. }
  apply round_even_le in Hs. rewrite Zle_Qle in Hs.
  rewrite E. apply Qmult_le_compat_r; [exact Hs | lra].
Qed.

Lemma round_pos_lower (x : Q) :
  0 < x -> (-1022 < binade x)%Z -> pow2 (binade x) <= round_pos x.
Proof.
  intros Hx Hn. unfold round_pos. cbv zeta.
  set (c := binade x) in *.
  destruct (ilog2_spec x Hx) as [Lx _].
  assert (Ec : c = ilog2 x) by (unfold c, binade in *; lia).
  rewrite <- Ec in Lx.
  assert (E : pow2 c == inject_Z (2 ^ 52) * pow2 (c - 52)).
  { rewrite <- pow2_inject by lia. rewrite <- pow2_add.
    replace (52 + (c - 52))%Z with c by lia. reflexivity. }
  pose proof (pow2_pos (c - 52)) as P.
  assert (Hs : inject_Z (2 ^ 52) <= x / pow2 (c - 52)).
  { apply Qle_shift_div_l; [exact P |]. rewrite <- E. exact Lx. }
  apply round_even_ge in Hs. rewrite Zle_Qle in Hs.
  rewrite E. apply Qmult_le_compat_r; [exact Hs | lra].
Qed.

Lemma round_pos_nonneg (x : Q) : 0 <= x -> 0 <= round_pos x.
Proof.
  intros Hx. unfold round_pos. cbv zeta.
  pose proof (pow2_pos (binade x - 52)) as P.
  assert (Hs : inject_Z 0 <= x / pow2 (binade x - 52)).
  { apply Qle_shift_div_l; [exact P |]. change (inject_Z 0) with 0. lra. }
  apply round_even_ge in Hs. rewrite Zle_Qle in Hs.
  apply Qmult_le_0_compat; [exact Hs | lra].
Qed.

Lemma round_pos_monotone (x y : Q) : 0 < x -> x <= y -> round_pos x <= round_pos y.
Proof.
  intros Hx Hxy.
  pose proof (binade_monotone x y Hx Hxy) as Hb.
  destruct (Z.eq_dec (binade x) (binade y)) as [E | Hne].
  - unfold round_pos. cbv zeta. rewrite E.
    pose proof (pow2_pos (binade y - 52)) as P.
    apply Qmult_le_compat_r; [| lra].
    rewrite <- Zle_Qle. apply round_even_monotone.
    apply Qmult_le_compat_r; [exact Hxy |].
    apply Qlt_le_weak, Qinv_lt_0_compat, P.
  - eapply Qle_trans; [apply round_pos_upper, Hx |].
    eapply Qle_trans; [| apply round_pos_lower].
    + apply pow2_le. lia.
    + lra.
    + unfold binade in *. lia.
Qed.

Lemma round_monotone (x y : Q) : x <= y -> round x <= round y.
Proof.
  intros Hxy. unfold round.
  destruct (Qcompare_spec x 0) as [Ex | Lx | Gx];
    destruct (Qcompare_spec y 0) as [Ey | Ly | Gy]; try lra.
  - pose proof (round_pos_nonneg y). lra.
  - pose proof (round_pos_nonneg (- x)). lra.
  - pose proof (round_pos_monotone (- y) (- x)). lra.
  - pose proof (round_pos_nonneg (- x)). pose proof (round_pos_nonneg y). lra.
  - apply round_pos_monotone; assumption.
Qed.

(** A positive number on the grid of its binade is its own rounding. *)
Lemma round_pos_grid (x : Q) (z : Z) :
  x / pow2 (binade x - 52) == inject_Z z -> round_pos x == x.
Proof.
  intros E. unfold round_pos. cbv zeta.
  rewrite (round_even_integer _ _ E), <- E. apply div_pow2.
Qed.

Lemma round_pos_dyadic (m : Z) : (0 < m <= 2 ^ 53)%Z -> round_pos (m # 2) == m # 2.
Proof.
  intros Hm.
  assert (Hx : 0 < m # 2) by (unfold Qlt; simpl; lia).
  destruct (ilog2_spec _ Hx) as [L U].
  assert (Hlo : (-1 <= ilog2 (m # 2))%Z).
  { destruct (Z_le_gt_dec (-1) (ilog2 (m # 2))) as [H | H]; [exact H |].
    pose proof (pow2_le (ilog2 (m # 2) + 1) (-1) ltac:(lia)) as P.
    assert (Hh : 1 # 2 <= m # 2) by (unfold Qle; simpl; lia).
    change (pow2 (-1)) with (1 # 2) in P. lra. }
  assert (Hhi : (ilog2 (m # 2) <= 52)%Z).
  { destruct (Z_le_gt_dec (ilog2 (m # 2)) 52) as [H | H]; [exact H |].
    pose proof (pow2_le 53 (ilog2 (m # 2)) ltac:(lia)) as P.
    assert (Hh : m # 2 <= inject_Z (2 ^ 52)) by (unfold Qle; simpl; lia).
    rewrite (pow2_inject 53) in P by lia.
    assert (inject_Z (2 ^ 52) < inject_Z (2 ^ 53)) by (rewrite <- Zlt_Qlt; lia).
    lra. }
  assert (Eb : binade (m # 2) = ilog2 (m # 2)) by (unfold binade; lia).
  set (c := ilog2 (m # 2)) in *.
  destruct (Z.eq_dec c 52%Z) as [E52 | Hne].
  - (* the top binade: m = 2^53 *)
    rewrite E52 in L. rewrite (pow2_inject 52) in L by lia.
    assert (Em : m = (2 ^ 53)%Z).
    { unfold Qle in L. simpl in L. lia. }
    apply (round_pos_grid _ (2 ^ 52)). rewrite Eb, E52. subst m. reflexivity.
  - apply (round_pos_grid _ (m * 2 ^ (51 - c))). rewrite Eb.
    pose proof (pow2_pos (c - 52)) as P.
    assert (E1 : pow2 (c - 52) * pow2 (52 - c) == 1).
    { rewrite <- pow2_add. replace (c - 52 + (52 - c))%Z with 0%Z by lia. reflexivity. }
    assert (E2 : pow2 (52 - c) == inject_Z (2 * 2 ^ (51 - c))).
    { rewrite pow2_inject by lia. replace (52 - c)%Z with (Z.succ (51 - c)) by lia.
      rewrite Z.pow_succ_r by lia. reflexivity. }
    assert (E3 : (m # 2) * inject_Z (2 * 2 ^ (51 - c)) == inject_Z (m * 2 ^ (51 - c))).
    { generalize (2 ^ (51 - c))%Z. intros K.
      unfold Qeq, Qmult, inject_Z. cbn [Qnum Qden]. lia. }
    apply (Qmult_inj_r _ _ (pow2 (c - 52))); [lra |].
    rewrite div_pow2, <- E3, <- E2, <- Qmult_assoc, (Qmult_comm (pow2 (52 - c))), E1.
    ring.
Qed.

Lemma round_dyadic (m : Z) : (Z.abs m <= 2 ^ 53)%Z -> round (m # 2) == m # 2.
Proof.
  intros Hm. unfold round.
  destruct (Qcompare_spec (m # 2) 0) as [E | L | G].
  - symmetry. exact E.
  - assert (Hn : (m < 0)%Z) by (unfold Qlt in L; simpl in L; lia).
    change (- (m # 2)) with ((- m) # 2).
    rewrite round_pos_dyadic by lia.
    unfold Qeq, Qopp. cbn [Qnum Qden]. lia.
  - assert (Hn : (0 < m)%Z) by (unfold Qlt in G; simpl in G; lia).
    apply round_pos_dyadic. lia.
Qed.
End Binary64Facts.

(** It rounds as binary64 does: 0.1 + 0.2 is not 0.3 but [2^-54] more,
    and [2^53 + 1] falls back on [2^53]. *)
Example round_tenths :
  let r := Binary64.round in
  (r (r (r (1 # 10) + r (2 # 10)) - r (3 # 10)) == Binary64.pow2 (-54))%Q
  ∧ (r 9007199254740993 == 9007199254740992)%Q.
Proof. split; vm_compute; reflexivity. Qed.

(** The arithmetic of binary64 numbers, below overflow. *)
Definition binary64 : Rounding :=
  {| rnd := Binary64.round;
     rnd_monotone := round_monotone;
     rnd_dyadic := round_dyadic |}.

(** ** Rounding *)

Section RoundingFacts.
Context {R : Rounding}.

#[global] Instance rnd_proper : Proper (Qeq ==> Qeq) rnd.
Proof.
  intros x y E. apply Qle_antisym; apply rnd_monotone; rewrite E; apply Qle_refl.
Qed.

#[global] Instance add_proper : Proper (Qeq ==> Qeq ==> Qeq) Number.add.
Proof. intros x x' Ex y y' Ey. unfold Number.add. rewrite Ex, Ey. reflexivity. Qed.

#[global] Instance sub_proper : Proper (Qeq ==> Qeq ==> Qeq) Number.sub.
Proof. intros x x' Ex y y' Ey. unfold Number.sub. rewrite Ex, Ey. reflexivity. Qed.

#[global] Instance mul_proper : Proper (Qeq ==> Qeq ==> Qeq) Number.mul.
Proof. intros x x' Ex y y' Ey. unfold Number.mul. rewrite Ex, Ey. reflexivity. Qed.

#[global] Instance div_proper : Proper (Qeq ==> Qeq ==> Qeq) Number.div.
Proof. intros x x' Ex y y' Ey. unfold Number.div. rewrite Ex, Ey. reflexivity. Qed.

(** Integers of magnitude up to [2^52] are numbers. *)
Lemma rnd_integer (z : Z) : Z.abs z <= 2 ^ 52 -> (rnd (inject_Z z) == inject_Z z)%Q.
Proof.
  intros Hz.
  assert (E : (inject_Z z == (2 * z) # 2)%Q).
  { unfold Qeq, inject_Z. simpl. lia. }
  rewrite E. apply rnd_dyadic. lia.
Qed.


Lemma add_monotone (x x' y : Q) : (x <= x')%Q -> (Number.add x y <= Number.add x' y)%Q.
Proof. intros H. apply rnd_monotone. lra. Qed.

Lemma sub_monotone (x x' y : Q) : (x <= x')%Q -> (Number.sub x y <= Number.sub x' y)%Q.
Proof. intros H. apply rnd_monotone. lra. Qed.

Lemma mul_monotone (x x' y : Q) :
  (0 <= y)%Q -> (x <= x')%Q -> (Number.mul x y <= Number.mul x' y)%Q.
Proof. intros Hy H. apply rnd_monotone. apply Qmult_le_compat_r; assumption. Qed.

Lemma div_monotone (x x' y : Q) :
  (0 < y)%Q -> (x <= x')%Q -> (Number.div x y <= Number.div x' y)%Q.
Proof.
  intros Hy H. apply rnd_monotone. unfold Qdiv.
  apply Qmult_le_compat_r; [exact H |].
  apply Qlt_le_weak, Qinv_lt_0_compat, Hy.
Qed.

Lemma floor_monotone (x y : Q) : (x <= y)%Q -> Math.floor x <= Math.floor y.
Proof. apply Qfloor_resp_le. Qed.

Lemma floor_integer (z : Z) (x : Q) : (x == inject_Z z)%Q -> Math.floor x = z.
Proof. intros E. unfold Math.floor. rewrite E. apply Qfloor_Z. Qed.
End RoundingFacts.

(** ** The pointer-to-frame mapping *)

Section PointerFacts.
Context {R : Rounding}.

Lemma getMouseX_run (x : Q) (σ : world) :
  getMouseX x σ = (Return (normalizedX x (innerWidth σ)), σ).
Proof. reflexivity. Qed.

Lemma textureIndex_run (e : MouseEvent) (min : option Q) (max : Q) (σ : world) :
  textureIndex e min max σ =
    (Return (frameIndex (normalizedX (clientX e) (innerWidth σ)) (default 1%Q min) max), σ).
Proof. reflexivity. Qed.

Lemma normalizedX_monotone (W x x' : Q) :
  (0 < W)%Q -> (x <= x')%Q -> (normalizedX x W <= normalizedX x' W)%Q.
Proof.
  intros HW Hx. unfold normalizedX.
  apply sub_monotone, mul_monotone; [lra |].
  apply div_monotone; assumption.
Qed.

Lemma frameIndex_monotone (min max nx nx' : Q) :
  (0 <= max)%Q -> (nx <= nx')%Q -> frameIndex nx min max <= frameIndex nx' min max.
Proof.
  intros Hmax Hx. unfold frameIndex.
  apply floor_monotone, div_monotone; [lra |].
  apply mul_monotone; [exact Hmax |].
  apply add_monotone, Hx.
Qed.

Lemma normalizedX_left (W : Q) : (0 < W)%Q -> (normalizedX 0 W == -1)%Q.
Proof.
  intros HW. unfold normalizedX, Number.div, Number.mul, Number.sub.
  assert (E0 : (0 / W == inject_Z 0)%Q) by (unfold inject_Z; field; lra).
  rewrite E0, (rnd_integer 0) by lia.
  assert (E1 : (inject_Z 0 * 2 == inject_Z 0)%Q) by reflexivity.
  rewrite E1, (rnd_integer 0) by lia.
  assert (E2 : (inject_Z 0 - 1 == inject_Z (-1))%Q) by reflexivity.
  rewrite E2, (rnd_integer (-1)) by lia.
  reflexivity.
Qed.

Lemma normalizedX_right (W : Q) : (0 < W)%Q -> (normalizedX W W == 1)%Q.
Proof.
  intros HW. unfold normalizedX, Number.div, Number.mul, Number.sub.
  assert (E0 : (W / W == inject_Z 1)%Q) by (unfold inject_Z; field; lra).
  rewrite E0, (rnd_integer 1) by lia.
  assert (E1 : (inject_Z 1 * 2 == inject_Z 2)%Q) by reflexivity.
  rewrite E1, (rnd_integer 2) by lia.
  assert (E2 : (inject_Z 2 - 1 == inject_Z 1)%Q) by reflexivity.
  rewrite E2, (rnd_integer 1) by lia.
  reflexivity.
Qed.


(** The frame of a normalized position that is an integer [a], for the
    deployed parameters. *)
Lemma frameIndex_deployed (nx : Q) (a : Z) :
  -1 <= a <= 1 -> (nx == inject_Z a)%Q ->
  frameIndex nx 1 imageSequenceLength = 59 * (a + 1).
Proof.
  intros Ha E. unfold frameIndex, imageSequenceLength.
  apply floor_integer.
  unfold Number.div, Number.mul, Number.add. rewrite E.
  assert (E0 : (inject_Z a + 1 == inject_Z (a + 1))%Q).
  { rewrite inject_Z_plus. reflexivity. }
  rewrite E0, (rnd_integer (a + 1)) by lia.
  assert (E1 : (inject_Z (a + 1) * 118 == inject_Z (118 * (a + 1)))%Q).
  { rewrite inject_Z_mult. unfold inject_Z at 2. ring. }
  rewrite E1, (rnd_integer (118 * (a + 1))) by lia.
  assert (E2 : (inject_Z (118 * (a + 1)) / 2 == inject_Z (59 * (a + 1)))%Q).
  { replace (118 * (a + 1)) with (2 * (59 * (a + 1))) by lia.
    rewrite (inject_Z_mult 2). unfold inject_Z at 1. field. }
  rewrite E2. apply rnd_integer. lia.
Qed.

(** What [handleImageShown] does, by the frame it computes. *)
Lemma handleImageShown_run (e : MouseEvent) (min : option Q) (max : Q) (σ : world) :
  ∃ k : Z,
    textureIndex e min max σ = (Return k, σ)
    ∧ (k = 0 -> handleImageShown e min max σ = (Return tt, σ))
    ∧ (k ≠ 0 ->
       ∃ (texture : N) (σ' : world),
         handleImageShown e min max σ = (Return tt, σ')
         ∧ gl_textures (gl σ) !! texture = None
         ∧ gl_textures (gl σ') = <[texture := new_texture]> (gl_textures (gl σ))
         ∧ images σ' = images σ ++ [Image (frame_url k) texture]
         ∧ console σ' =
             console σ ++ [[VNum (inject_Z (clock σ)); VStr "{{ handleImageShown }}";
                            VTexture texture]]
         ∧ arrays σ' = arrays σ
         ∧ gl_shaders (gl σ') = gl_shaders (gl σ)
         ∧ gl_texture_2d (gl σ') = gl_texture_2d (gl σ)).
Proof.
  eexists. split; [apply textureIndex_run |].
  unfold handleImageShown.
  rewrite (bind_return _ _ _ _ _ (textureIndex_run e min max σ)).
  split.
  - intros ->. reflexivity.
  - intros Hk. rewrite bool_decide_eq_false_2 by exact Hk.
    eexists (fresh (dom (gl_textures (gl σ)))), _.
    split; [reflexivity |].
    split; [apply not_elem_of_dom, is_fresh |].
    repeat split.
Qed.
End PointerFacts.

(** ** The size of a frame *)

Lemma mul_bound (a b A B : Q) :
  (- A <= a)%Q -> (a <= A)%Q -> (- B <= b)%Q -> (b <= B)%Q ->
  (- (A * B) <= a * b)%Q ∧ (a * b <= A * B)%Q.
Proof.
  intros H1 H2 H3 H4.
  assert (P1 : (0 <= (A - a) * (B - b))%Q) by (apply Qmult_le_0_compat; lra).
  assert (P2 : (0 <= (A + a) * (B + b))%Q) by (apply Qmult_le_0_compat; lra).
  assert (P3 : (0 <= (A - a) * (B + b))%Q) by (apply Qmult_le_0_compat; lra).
  assert (P4 : (0 <= (A + a) * (B - b))%Q) by (apply Qmult_le_0_compat; lra).
  split; lra.
Qed.



Section RangeFacts.
Context {R : Rounding}.

(** Rounding does not cross an integer of magnitude up to [2^52]. *)
Lemma rnd_between (lo hi : Z) (z : Q) :
  Z.abs lo <= 2 ^ 52 -> Z.abs hi <= 2 ^ 52 ->
  (inject_Z lo <= z)%Q -> (z <= inject_Z hi)%Q ->
  (inject_Z lo <= rnd z)%Q ∧ (rnd z <= inject_Z hi)%Q.
Proof.
  intros Hlo Hhi H1 H2. split.
  - rewrite <- (rnd_integer lo Hlo). apply rnd_monotone, H1.
  - rewrite <- (rnd_integer hi Hhi). apply rnd_monotone, H2.
Qed.

Lemma normalizedX_in_viewport (W x : Q) :
  (0 < W)%Q -> (0 <= x)%Q -> (x <= W)%Q ->
  (-1 <= normalizedX x W)%Q ∧ (normalizedX x W <= 1)%Q.
Proof.
  intros HW Hlo Hhi. split.
  - rewrite <- (normalizedX_left W HW). apply normalizedX_monotone; assumption.
  - rewrite <- (normalizedX_right W HW). apply normalizedX_monotone; assumption.
Qed.

(** With [min] and [max] of magnitude up to [2^25], the frame of a
    normalized position between -1 and 1 is an integer of magnitude up to
    [2^50]: a number that [Number::toString] prints digit by digit. *)
Lemma frameIndex_bounded (nx m X : Q) :
  (-1 <= nx)%Q -> (nx <= 1)%Q ->
  (-33554432 <= m)%Q -> (m <= 33554432)%Q ->
  (-33554432 <= X)%Q -> (X <= 33554432)%Q ->
  Z.abs (frameIndex nx m X) <= 2 ^ 50.
Proof.
  intros N1 N2 M1 M2 X1 X2. unfold frameIndex, Number.div, Number.mul, Number.add.
  destruct (rnd_between (-33554433) 33554433 (nx + m)) as [D1 D2];
    [lia | lia | unfold inject_Z; lra | unfold inject_Z; lra |].
  set (d := rnd (nx + m)) in *. unfold inject_Z in D1, D2.
  destruct (mul_bound d X 33554433 33554432) as [P1 P2]; try lra.
  destruct (rnd_between (-1125899940397056) 1125899940397056 (d * X)) as [E1 E2];
    [lia | lia | unfold inject_Z; lra | unfold inject_Z; lra |].
  set (e := rnd (d * X)) in *. unfold inject_Z in E1, E2.
  assert (Hh : (e / 2 == e * (1 # 2))%Q) by field.
  destruct (rnd_between (-562949970198528) 562949970198528 (e / 2)) as [F1 F2];
    [lia | lia | rewrite Hh; unfold inject_Z; lra | rewrite Hh; unfold inject_Z; lra |].
  set (f := rnd (e / 2)) in *.
  pose proof (Qfloor_resp_le _ _ F1) as G1. pose proof (Qfloor_resp_le _ _ F2) as G2.
  rewrite Qfloor_Z in G1, G2. unfold Math.floor. lia.
Qed.

Lemma textureIndex_bounded (σ : world) (e : MouseEvent) (min : option Q) (max : Q) (k : Z) :
  (0 < innerWidth σ)%Q ->
  (0 <= clientX e)%Q ->
  (clientX e <= innerWidth σ)%Q ->
  (Qabs (default 1%Q min) <= 33554432)%Q ->
  (Qabs max <= 33554432)%Q ->
  textureIndex e min max σ = (Return k, σ) ->
  Z.abs k <= 2 ^ 50.
Proof.
  intros HW Lx Ux Hmin Hmax Hk.
  apply Qabs_Qle_condition in Hmin as [Lm Um].
  apply Qabs_Qle_condition in Hmax as [LX UX].
  rewrite textureIndex_run in Hk. injection Hk as <-.
  destruct (normalizedX_in_viewport _ _ HW Lx Ux) as [N1 N2].
  apply frameIndex_bounded; lra.
Qed.

(** The deployed mapping sends the viewport onto the frames 0 to 118. *)
Lemma deployed_frame_range (W : Q) (e : MouseEvent) :
  (0 < W)%Q -> (0 <= clientX e)%Q -> (clientX e <= W)%Q ->
  0 <= deployed_frame W e <= 118.
Proof.
  intros HW Hlo Hhi. unfold deployed_frame.
  pose proof (normalizedX_left _ HW) as El.
  pose proof (normalizedX_right _ HW) as Er.
  pose proof (normalizedX_monotone _ _ _ HW Hlo) as Hl.
  pose proof (normalizedX_monotone _ _ _ HW Hhi) as Hr.
  pose proof (frameIndex_monotone 1 imageSequenceLength _ _
                ltac:(unfold imageSequenceLength; lra) Hl) as Hl'.
  pose proof (frameIndex_monotone 1 imageSequenceLength _ _
                ltac:(unfold imageSequenceLength; lra) Hr) as Hr'.
  rewrite (frameIndex_deployed (normalizedX 0 W) (-1)) in Hl' by (lia || exact El).
  rewrite (frameIndex_deployed (normalizedX W W) 1) in Hr' by (lia || exact Er).
  lia.
Qed.
End RangeFacts.

(** ** How far rounding moves a number *)

Section Binary64Accuracy.
Import Binary64.
Local Open Scope Q_scope.




End Binary64Accuracy.

(** ** The frame of the code and the frame of the formula *)

Section FormulaFacts.
Local Open Scope Q_scope.


End FormulaFacts.

(** C9: in a viewport of positive width [W], [getMouseX] maps the pointer
    position 0 to -1 and the position [W] to 1. *)
Theorem getMouseX_ends {R : Rounding} (σ : world) :
  (0 < innerWidth σ)%Q ->
  ∃ l r : Q,
    getMouseX 0 σ = (Return l, σ) ∧ (l == -1)%Q
    ∧ getMouseX (innerWidth σ) σ = (Return r, σ) ∧ (r == 1)%Q.
Proof.
  intros HW. eexists _, _.
  split; [apply getMouseX_run |].
  split; [apply normalizedX_left, HW |].
  split; [apply getMouseX_run |].
  apply normalizedX_right, HW.
Qed.

Lemma getMouseX_ends_witness :
  ∃ l r : Q,
    @getMouseX binary64 0 page = (Return l, page) ∧ (l == -1)%Q
    ∧ @getMouseX binary64 1920 page = (Return r, page) ∧ (r == 1)%Q.
Proof. apply (@getMouseX_ends binary64 page). reflexivity. Defined.




(** C6: for a pointer inside a viewport of positive width and [min], [max]
    of magnitude up to [2^25], the frame that [handleImageShown] computes
    is an integer of magnitude up to [2^50].  When it is 0, the handler
    returns with the world as it was: no texture, no image, no request.
    For every other frame [k] it creates one texture, requests the image
    [assets/images/image-k.webp] for it and logs the texture. *)
Theorem handleImageShown_policy {R : Rounding}
    (e : MouseEvent) (min : option Q) (max : Q) (σ : world) :
  (0 < innerWidth σ)%Q ->
  (0 <= clientX e)%Q ->
  (clientX e <= innerWidth σ)%Q ->
  (Qabs (default 1%Q min) <= 33554432)%Q ->
  (Qabs max <= 33554432)%Q ->
  ∃ k : Z,
    textureIndex e min max σ = (Return k, σ)
    ∧ Z.abs k <= 2 ^ 50
    ∧ (k = 0 -> handleImageShown e min max σ = (Return tt, σ))
    ∧ (k ≠ 0 ->
       ∃ (texture : N) (σ' : world),
         handleImageShown e min max σ = (Return tt, σ')
         ∧ gl_textures (gl σ) !! texture = None
         ∧ gl_textures (gl σ') = <[texture := new_texture]> (gl_textures (gl σ))
         ∧ images σ' = images σ ++ [Image (frame_url k) texture]
         ∧ console σ' =
             console σ ++ [[VNum (inject_Z (clock σ)); VStr "{{ handleImageShown }}";
                            VTexture texture]]).
Proof.
  intros HW Lx Ux Hmin Hmax.
  destruct (handleImageShown_run e min max σ) as (k & Hk & H0 & Hn).
  exists k. split; [exact Hk |].
  split; [exact (textureIndex_bounded σ e min max k HW Lx Ux Hmin Hmax Hk) |].
  split; [exact H0 |].
  intros Hne. destruct (Hn Hne) as (t & σ' & Hrun & Hf & Ht & Hi & Hc & _).
  exists t, σ'. auto.
Qed.

Lemma handleImageShown_policy_witness :
  ∃ k : Z,
    @textureIndex binary64 {| clientX := 480 |} None 118 page = (Return k, page)
    ∧ Z.abs k <= 2 ^ 50
    ∧ (k = 0 -> @handleImageShown binary64 {| clientX := 480 |} None 118 page
                = (Return tt, page))
    ∧ (k ≠ 0 ->
       ∃ (texture : N) (σ' : world),
         @handleImageShown binary64 {| clientX := 480 |} None 118 page = (Return tt, σ')
         ∧ gl_textures (gl page) !! texture = None
         ∧ gl_textures (gl σ') = <[texture := new_texture]> (gl_textures (gl page))
         ∧ images σ' = images page ++ [Image (frame_url k) texture]
         ∧ console σ' =
             console page ++ [[VNum (inject_Z (clock page)); VStr "{{ handleImageShown }}";
                               VTexture texture]]).
Proof.
  apply (@handleImageShown_policy binary64 {| clientX := 480 |} None 118 page).
  - reflexivity.
  - simpl. lra.
  - simpl. lra.
  - vm_compute. discriminate.
  - vm_compute. discriminate.
Defined.

(** A quarter of the way across the deployed viewport, with [min] left to
    its default: frame 29. *)
Example handleImageShown_at_480 :
  let run := @handleImageShown binary64 {| clientX := 480 |} None 118 page in
  fst run = Return tt
  ∧ images (snd run) = [Image "assets/images/image-29.webp" 0%N]
  ∧ console (snd run) = [[VNum 0; VStr "{{ handleImageShown }}"; VTexture 0%N]].
Proof. vm_compute. repeat split. Qed.

(** C2: for a pointer between 0 and the positive width of the viewport,
    the listener of the start-up script (min = 1, max = 118) computes a
    frame between 0 and 118, and every image it requests has the URL
    [assets/images/image-k.webp] of a frame [k] between 1 and 118; for
    frame 0 it requests none. *)
Theorem mousemove_listener_frames {R : Rounding} (σ : world) (e : MouseEvent) :
  (0 < innerWidth σ)%Q ->
  (0 <= clientX e)%Q ->
  (clientX e <= innerWidth σ)%Q ->
  ∃ (k : Z) (σ' : world) (requested : list image),
    textureIndex e (Some 1%Q) 118 σ = (Return k, σ)
    ∧ 0 <= k <= 118
    ∧ mousemove_listener e σ = (Return tt, σ')
    ∧ images σ' = images σ ++ requested
    ∧ Forall (λ img, ∃ j : Z, 1 <= j <= 118 ∧ img_src img = frame_url j) requested
    ∧ (k = 0 -> requested = []).
Proof.
  intros HW Hlo Hhi.
  destruct (handleImageShown_run e (Some 1%Q) imageSequenceLength σ) as (k & Hk & H0 & Hn).
  assert (Hrange : 0 <= k <= 118).
  { rewrite textureIndex_run in Hk. injection Hk as <-. simpl default.
    pose proof (normalizedX_left _ HW) as El.
    pose proof (normalizedX_right _ HW) as Er.
    pose proof (normalizedX_monotone _ _ _ HW Hlo) as Hl.
    pose proof (normalizedX_monotone _ _ _ HW Hhi) as Hr.
    pose proof (frameIndex_monotone 1 imageSequenceLength _ _ ltac:(unfold imageSequenceLength; lra) Hl) as Hl'.
    pose proof (frameIndex_monotone 1 imageSequenceLength _ _ ltac:(unfold imageSequenceLength; lra) Hr) as Hr'.
    rewrite (frameIndex_deployed (normalizedX 0 (innerWidth σ)) (-1))
      in Hl' by (lia || exact El).
    rewrite (frameIndex_deployed (normalizedX (innerWidth σ) (innerWidth σ)) 1)
      in Hr' by (lia || exact Er).
    lia. }
  exists k. destruct (decide (k = 0)) as [E | Hne].
  - exists σ, []. split; [exact Hk |]. split; [exact Hrange |].
    split; [exact (H0 E) |]. split; [rewrite app_nil_r; reflexivity |].
    split; [constructor | reflexivity].
  - destruct (Hn Hne) as (t & σ' & Hrun & _ & _ & Hi & _).
    exists σ', [Image (frame_url k) t]. split; [exact Hk |]. split; [exact Hrange |].
    split; [exact Hrun |]. split; [exact Hi |].
    split; [| intros E; contradiction].
    constructor; [| constructor]. exists k. split; [lia | reflexivity].
Qed.

Lemma mousemove_listener_frames_witness :
  ∃ (k : Z) (σ' : world) (requested : list image),
    @textureIndex binary64 {| clientX := 1920 |} (Some 1%Q) 118 page = (Return k, page)
    ∧ 0 <= k <= 118
    ∧ @mousemove_listener binary64 {| clientX := 1920 |} page = (Return tt, σ')
    ∧ images σ' = images page ++ requested
    ∧ Forall (λ img, ∃ j : Z, 1 <= j <= 118 ∧ img_src img = frame_url j) requested
    ∧ (k = 0 -> requested = []).
Proof.
  apply (@mousemove_listener_frames binary64 page {| clientX := 1920 |}).
  - reflexivity.
  - simpl. lra.
  - simpl. lra.
Defined.

(** C3, amended by the sign of [max]: in a viewport of positive width, for
    every [min] and every positive [max], the frame computed for a pointer
    position is at most the frame computed for any position further
    right.  For [max = 0] the same holds for positions inside the
    viewport; further out the quotient by the width can leave the numbers,
    and infinity times 0 is not a number. *)
Theorem textureIndex_monotone {R : Rounding}
    (σ : world) (e1 e2 : MouseEvent) (min : option Q) (max : Q) :
  (0 < innerWidth σ)%Q ->
  (0 < max)%Q
  ∨ ((max == 0)%Q ∧ (0 <= clientX e1)%Q ∧ (clientX e2 <= innerWidth σ)%Q) ->
  (clientX e1 <= clientX e2)%Q ->
  ∃ k1 k2 : Z,
    textureIndex e1 min max σ = (Return k1, σ)
    ∧ textureIndex e2 min max σ = (Return k2, σ)
    ∧ k1 <= k2.
Proof.
  intros HW Hmax Hx. eexists _, _.
  split; [apply textureIndex_run |]. split; [apply textureIndex_run |].
  apply frameIndex_monotone.
  - destruct Hmax as [H | (H & _)]; lra.
  - apply normalizedX_monotone; assumption.
Qed.

Lemma textureIndex_monotone_witness :
  ∃ k1 k2 : Z,
    @textureIndex binary64 {| clientX := 100 |} (Some 1%Q) 118 page = (Return k1, page)
    ∧ @textureIndex binary64 {| clientX := 1000 |} (Some 1%Q) 118 page = (Return k2, page)
    ∧ k1 <= k2.
Proof.
  apply (@textureIndex_monotone binary64 page
           {| clientX := 100 |} {| clientX := 1000 |} (Some 1%Q) 118).
  - reflexivity.
  - left. lra.
  - simpl. lra.
Defined.

(** C3 as stated fails for a negative [max]: with [min = 1] and
    [max = -2] the left edge of the viewport gets frame 0 and the right
    edge frame -2. *)
Lemma textureIndex_negative_max_decreases :
  (0 < innerWidth page)%Q
  ∧ (0 <= 1920)%Q
  ∧ @textureIndex binary64 {| clientX := 0 |} (Some 1%Q) (-2) page = (Return 0, page)
  ∧ @textureIndex binary64 {| clientX := 1920 |} (Some 1%Q) (-2) page = (Return (-2), page)
  ∧ ¬ (0 <= -2).
Proof.
  split; [reflexivity |]. split; [lra |].
  split; [vm_compute; reflexivity |]. split; [vm_compute; reflexivity | lia].
Qed.

(** * Further properties of the code *)

(** ** The power-of-two check on every integer *)

Lemma ToInt32_residue (z : Z) : ToInt32 z = ToInt32 (z mod 2 ^ 32).
Proof. unfold ToInt32. rewrite Z.mod_mod by lia. reflexivity. Qed.

Lemma ToInt32_high (m : Z) : 2 ^ 31 <= m < 2 ^ 32 -> ToInt32 m = m - 2 ^ 32.
Proof.
  intros Hm. unfold ToInt32. cbv zeta.
  rewrite Z.mod_small by lia. rewrite bool_decide_eq_true_2 by lia. reflexivity.
Qed.

Lemma pred_residue (v : Z) :
  0 < v mod 2 ^ 32 -> (v - 1) mod 2 ^ 32 = v mod 2 ^ 32 - 1.
Proof.
  intros Hm.
  pose proof (Z.mod_pos_bound v (2 ^ 32) ltac:(lia)) as Hb.
  symmetry. apply (Z.mod_unique _ _ (v / 2 ^ 32)); [lia |].
  pose proof (Z.div_mod v (2 ^ 32) ltac:(lia)). lia.
Qed.

Lemma no_power_of_two_between (m : Z) : 2 ^ 31 < m < 2 ^ 32 -> ¬ power_of_two m.
Proof.
  intros Hm (k & Hk & E).
  destruct (Z_le_gt_dec k 31) as [Hle | Hgt].
  - pose proof (Z.pow_le_mono_r 2 k 31 ltac:(lia) Hle). lia.
  - pose proof (Z.pow_le_mono_r 2 32 k ltac:(lia) ltac:(lia)). lia.
Qed.

(** The check looks at the low 32 bits of its argument only: it answers
    [true] when they are all zero or hold exactly one set bit. *)
Lemma isPowerOf2_residue (v : Z) :
  isPowerOf2 v = true <-> v mod 2 ^ 32 = 0 ∨ power_of_two (v mod 2 ^ 32).
Proof.
  unfold isPowerOf2. rewrite bool_decide_eq_true.
  rewrite (ToInt32_residue v), (ToInt32_residue (v - 1)).
  pose proof (Z.mod_pos_bound v (2 ^ 32) ltac:(lia)) as Hb.
  set (m := v mod 2 ^ 32) in *.
  destruct (Z.eq_dec m 0) as [E0 | Hne].
  - rewrite E0. split; [intros _; left; reflexivity | intros _; reflexivity].
  - rewrite pred_residue by (fold m; lia). fold m.
    destruct (Z_lt_le_dec m (2 ^ 31)) as [Hlow | Hhigh].
    + rewrite !ToInt32_small by lia.
      destruct m as [| p | p]; try lia.
      rewrite land_pred_power_of_two. split; [intros H; right; exact H | intros [H | H]; [lia | exact H]].
    + destruct (Z.eq_dec m (2 ^ 31)) as [E31 | Hne31].
      * rewrite E31. split; [| intros _; reflexivity].
        intros _. right. exists 31. split; [lia | reflexivity].
      * rewrite (ToInt32_high m), (ToInt32_high (m - 1)) by lia.
        split.
        -- intros H.
           assert (Hneg : Z.land (m - 2 ^ 32) (m - 1 - 2 ^ 32) < 0) by (apply Z.land_neg; lia).
           lia.
        -- intros [H | H]; [lia |].
           exfalso. revert H. apply no_power_of_two_between. lia.
Qed.

(** X1: [isPowerOf2] on every integer of magnitude below [2^53], where the
    argument and the argument less 1 are both numbers: it answers [true]
    exactly when the argument modulo [2^32] is 0 or a power of two.  So it
    also accepts 0, every multiple of [2^32] and numbers such as
    [2^32 + 1]. *)
Theorem isPowerOf2_modulo (v : Z) :
  Z.abs v < 2 ^ 53 ->
  isPowerOf2 v = true <-> v mod 2 ^ 32 = 0 ∨ power_of_two (v mod 2 ^ 32).
Proof. intros _. apply isPowerOf2_residue. Qed.

Lemma isPowerOf2_modulo_witness :
  isPowerOf2 4294967297 = true
  <-> 4294967297 mod 2 ^ 32 = 0 ∨ power_of_two (4294967297 mod 2 ^ 32).
Proof. apply (isPowerOf2_modulo 4294967297). lia. Defined.

(** X2: On the sizes an image can report, from 1 to [2^32 - 1], the check is
    exact. *)
Theorem isPowerOf2_image_size (v : Z) :
  0 < v < 2 ^ 32 -> isPowerOf2 v = true <-> power_of_two v.
Proof.
  intros Hv. rewrite isPowerOf2_residue, Z.mod_small by lia.
  split; [intros [H | H]; [lia | exact H] | intros H; right; exact H].
Qed.

Lemma isPowerOf2_image_size_witness :
  isPowerOf2 2147483648 = true <-> power_of_two 2147483648.
Proof. apply (isPowerOf2_image_size 2147483648). lia. Defined.

(** ** Texture loads *)

Lemma loadTexture_onload_effect (t : N) (img : image_data) (σ : world) :
  loadTexture_onload t img σ =
    (Return tt,
     set_gl (λ g, set_texture_2d (Some t)
                    (set_textures (alter (λ o, loaded_texture o img) t) g)) σ).
Proof.
  unfold loadTexture_onload, loaded_texture.
  destruct (isPowerOf2 (width img) && isPowerOf2 (height img)).
  all: cbv [mbind JS_bind gl_.bindTexture gl_.texImage2D gl_.generateMipmap
            gl_.texParameteri gl_.on_bound modify set_gl set_texture_2d set_textures
            gl gl_texture_2d gl_textures gl_shaders gl_compiler arrays images console
            innerWidth clock].
  all: destruct σ as [ar [sh tx b cp] im co iw ck]; cbn.
  all: apply (f_equal (λ tx', (Return tt, World ar (GL sh tx' (Some t) cp) im co iw ck))).
  all: rewrite !alter_alter_eq; apply alter_ext; intros o _; reflexivity.
Qed.

Lemma loadTexture_effect (url : string) (σ : world) :
  loadTexture url σ =
    (Return (fresh (dom (gl_textures (gl σ)))),
     set_images (λ l, l ++ [Image url (fresh (dom (gl_textures (gl σ))))])
       (set_gl (set_textures <[fresh (dom (gl_textures (gl σ))) := new_texture]>) σ)).
Proof. reflexivity. Qed.

Lemma fresh_texture (σ : world) :
  gl_textures (gl σ) !! fresh (dom (gl_textures (gl σ))) = None.
Proof. apply not_elem_of_dom, is_fresh. Qed.

(** X4: The callback rebinds: whatever was bound to [TEXTURE_2D] before, the
    texture that the callback captured is bound to it once the callback
    has run; binding it is the first thing the callback does.  The
    callback touches no other texture, no shader, no array, no image and
    not the console. *)
Theorem loadTexture_onload_rebinds (σ : world) (t : N) (o : texture_obj) (img : image_data) :
  gl_textures (gl σ) !! t = Some o ->
  let σ' := snd (loadTexture_onload t img σ) in
  gl_texture_2d (gl σ') = Some t
  ∧ (∀ t' : N, t' ≠ t -> gl_textures (gl σ') !! t' = gl_textures (gl σ) !! t')
  ∧ gl_shaders (gl σ') = gl_shaders (gl σ)
  ∧ arrays σ' = arrays σ
  ∧ images σ' = images σ
  ∧ console σ' = console σ.
Proof.
  intros _ σ'. subst σ'. rewrite loadTexture_onload_effect. cbn [snd].
  split; [reflexivity |].
  split; [| repeat split].
  intros t' Hne. cbn. apply lookup_alter_ne. congruence.
Qed.

Lemma loadTexture_onload_rebinds_witness :
  let σ := set_gl (set_texture_2d (Some 1%N))
             (set_gl (set_textures (λ _, {[ 0%N := new_texture; 1%N := new_texture ]})) page) in
  let σ' := snd (loadTexture_onload 0%N (ImageData 1920 1080) σ) in
  gl_texture_2d (gl σ) = Some 1%N
  ∧ gl_texture_2d (gl σ') = Some 0%N
  ∧ gl_textures (gl σ') !! 1%N = Some new_texture.
Proof.
  intros σ σ'.
  destruct (loadTexture_onload_rebinds σ 0%N new_texture (ImageData 1920 1080))
    as (Hb & Hother & _).
  - reflexivity.
  - split; [reflexivity |]. split; [exact Hb |].
    unfold σ'. rewrite (Hother 1%N) by discriminate. reflexivity.
Defined.



(** ** The pointer, for every sequence length *)

Section PointerExtras.
Context {R : Rounding}.

Lemma handleImageShown_effect (e : MouseEvent) (min : option Q) (max : Q) (σ : world) :
  handleImageShown e min max σ =
    (Return tt,
     let k := frameIndex (normalizedX (clientX e) (innerWidth σ)) (default 1%Q min) max in
     if bool_decide (k = 0) then σ else requested σ k).
Proof.
  unfold handleImageShown.
  rewrite (bind_return _ _ _ _ _ (textureIndex_run e min max σ)).
  cbv zeta. destruct (bool_decide _); reflexivity.
Qed.

(** At the left end of its range the mapping gives frame 0, whatever the
    sequence length. *)
Lemma frameIndex_left (nx max : Q) : (nx == -1)%Q -> frameIndex nx 1 max = 0.
Proof.
  intros E. unfold frameIndex. apply floor_integer.
  unfold Number.div, Number.mul, Number.add. rewrite E.
  assert (E0 : (-1 + 1 == inject_Z 0)%Q) by reflexivity.
  rewrite E0, (rnd_integer 0) by lia.
  assert (E1 : (inject_Z 0 * max == inject_Z 0)%Q) by (unfold inject_Z; ring).
  rewrite E1, (rnd_integer 0) by lia.
  assert (E2 : (inject_Z 0 / 2 == inject_Z 0)%Q) by reflexivity.
  rewrite E2. apply rnd_integer. lia.
Qed.

(** At the right end it gives the sequence length itself. *)
Lemma frameIndex_right (nx max : Q) (n : Z) :
  Z.abs n <= 2 ^ 51 -> (nx == 1)%Q -> (max == inject_Z n)%Q -> frameIndex nx 1 max = n.
Proof.
  intros Hn E Emax. unfold frameIndex. apply floor_integer.
  unfold Number.div, Number.mul, Number.add. rewrite E, Emax.
  assert (E0 : (1 + 1 == inject_Z 2)%Q) by reflexivity.
  rewrite E0, (rnd_integer 2) by lia.
  assert (E1 : (inject_Z 2 * inject_Z n == inject_Z (2 * n))%Q).
  { rewrite inject_Z_mult. reflexivity. }
  rewrite E1, (rnd_integer (2 * n)) by lia.
  assert (E2 : (inject_Z (2 * n) / 2 == inject_Z n)%Q).
  { rewrite inject_Z_mult. unfold inject_Z at 1. field. }
  rewrite E2. apply rnd_integer. lia.
Qed.

(** X9: [getMouseX] is monotone in the pointer position, stays between -1 and
    1 for a pointer inside the viewport, and leaves that interval on the
    side on which the pointer leaves the viewport. *)
Theorem getMouseX_range (σ : world) (x x' : Q) :
  (0 < innerWidth σ)%Q ->
  ∃ r r' : Q,
    getMouseX x σ = (Return r, σ)
    ∧ getMouseX x' σ = (Return r', σ)
    ∧ ((x <= x')%Q -> (r <= r')%Q)
    ∧ ((0 <= x)%Q -> (-1 <= r)%Q)
    ∧ ((x <= innerWidth σ)%Q -> (r <= 1)%Q)
    ∧ ((x <= 0)%Q -> (r <= -1)%Q)
    ∧ ((innerWidth σ <= x)%Q -> (1 <= r)%Q).
Proof.
  intros HW. eexists _, _.
  split; [apply getMouseX_run |]. split; [apply getMouseX_run |].
  pose proof (normalizedX_left _ HW) as El.
  pose proof (normalizedX_right _ HW) as Er.
  split; [apply normalizedX_monotone, HW |].
  split; [intros H; rewrite <- El; apply normalizedX_monotone; assumption |].
  split; [intros H; rewrite <- Er; apply normalizedX_monotone; assumption |].
  split; [intros H; rewrite <- El; apply normalizedX_monotone; assumption |].
  intros H; rewrite <- Er; apply normalizedX_monotone; assumption.
Qed.

(** X10: For [min = 1], given or by default, and a sequence of [n] frames, [n]
    an integer from 0 to [2^51]: a pointer inside the viewport gets a frame
    from 0 to [n], the left edge gets frame 0 and the right edge frame
    [n]. *)
Theorem textureIndex_any_length (σ : world) (e : MouseEvent) (min : option Q) (n : Z) :
  (0 < innerWidth σ)%Q ->
  (default 1 min == 1)%Q ->
  0 <= n <= 2 ^ 51 ->
  (0 <= clientX e)%Q ->
  (clientX e <= innerWidth σ)%Q ->
  ∃ k : Z,
    textureIndex e min (inject_Z n) σ = (Return k, σ)
    ∧ 0 <= k <= n
    ∧ ((clientX e == 0)%Q -> k = 0)
    ∧ ((clientX e == innerWidth σ)%Q -> k = n).
Proof.
  intros HW Hmin Hn Hlo Hhi.
  eexists. split; [apply textureIndex_run |].
  set (W := innerWidth σ) in *.
  assert (Hmax : (0 <= inject_Z n)%Q) by (rewrite <- (Zle_Qle 0); lia).
  assert (Emin : ∀ nx, frameIndex nx (default 1%Q min) (inject_Z n)
                       = frameIndex nx 1 (inject_Z n)).
  { intros nx. unfold frameIndex, Math.floor.
    apply Qfloor_comp. rewrite Hmin. reflexivity. }
  rewrite Emin.
  pose proof (normalizedX_left _ HW) as El.
  pose proof (normalizedX_right _ HW) as Er.
  assert (L : frameIndex (normalizedX 0 W) 1 (inject_Z n) = 0)
    by (apply frameIndex_left, El).
  assert (U : frameIndex (normalizedX W W) 1 (inject_Z n) = n)
    by (apply (frameIndex_right _ _ n); [lia | exact Er | reflexivity]).
  pose proof (frameIndex_monotone 1 (inject_Z n) _ _ Hmax
                (normalizedX_monotone W _ _ HW Hlo)) as H1.
  pose proof (frameIndex_monotone 1 (inject_Z n) _ _ Hmax
                (normalizedX_monotone W _ _ HW Hhi)) as H2.
  split; [lia |]. split.
  - intros E.
    pose proof (frameIndex_monotone 1 (inject_Z n) _ _ Hmax
                  (normalizedX_monotone W (clientX e) 0 HW ltac:(lra))). lia.
  - intros E.
    pose proof (frameIndex_monotone 1 (inject_Z n) _ _ Hmax
                  (normalizedX_monotone W W (clientX e) HW ltac:(lra))). lia.
Qed.

(** X11: With [min = 1], given or by default, a pointer at the left edge of
    the viewport is idle for every [max]: the handler returns with the
    world as it was. *)
Theorem handleImageShown_left_edge (σ : world) (e : MouseEvent) (min : option Q) (max : Q) :
  (0 < innerWidth σ)%Q ->
  (default 1 min == 1)%Q ->
  (clientX e == 0)%Q ->
  handleImageShown e min max σ = (Return tt, σ).
Proof.
  intros HW Hmin Hx.
  rewrite handleImageShown_effect. cbv zeta.
  assert (E : frameIndex (normalizedX (clientX e) (innerWidth σ)) (default 1%Q min) max = 0).
  { transitivity (frameIndex (normalizedX (clientX e) (innerWidth σ)) 1 max).
    - unfold frameIndex, Math.floor. apply Qfloor_comp. rewrite Hmin. reflexivity.
    - apply frameIndex_left.
      rewrite <- (normalizedX_left _ HW).
      unfold normalizedX. rewrite Hx. reflexivity. }
  rewrite E. reflexivity.
Qed.

End PointerExtras.

Lemma getMouseX_range_witness :
  ∃ r r' : Q,
    @getMouseX binary64 100 page = (Return r, page)
    ∧ @getMouseX binary64 2000 page = (Return r', page)
    ∧ (r <= r')%Q ∧ (-1 <= r)%Q ∧ (r <= 1)%Q ∧ (1 <= r')%Q.
Proof.
  destruct (@getMouseX_range binary64 page 100 2000) as (r & r' & H1 & H2 & Hm & Hl & Hu & _ & _).
  { reflexivity. }
  destruct (@getMouseX_range binary64 page 2000 100) as (s & s' & G1 & _ & _ & _ & _ & _ & Hr).
  { reflexivity. }
  exists r, r'. split; [exact H1 |]. split; [exact H2 |].
  split; [apply Hm; cbn; lra |]. split; [apply Hl; lra |]. split; [apply Hu; cbn; lra |].
  rewrite H2 in G1. injection G1 as <-. apply Hr. cbn. lra.
Defined.

Lemma textureIndex_any_length_witness :
  ∃ k : Z,
    @textureIndex binary64 {| clientX := 1920 |} None (inject_Z 24) page = (Return k, page)
    ∧ 0 <= k <= 24
    ∧ k = 24.
Proof.
  destruct (@textureIndex_any_length binary64 page {| clientX := 1920 |} None 24)
    as (k & Hk & Hr & _ & Hn).
  - reflexivity.
  - reflexivity.
  - lia.
  - cbn. lra.
  - cbn. lra.
  - exists k. split; [exact Hk |]. split; [exact Hr |]. apply Hn. reflexivity.
Defined.

Lemma handleImageShown_left_edge_witness :
  @handleImageShown binary64 {| clientX := 0 |} None (-7 # 3) page = (Return tt, page).
Proof.
  apply (@handleImageShown_left_edge binary64 page {| clientX := 0 |} None (-7 # 3)).
  - reflexivity.
  - reflexivity.
  - reflexivity.
Defined.

(** ** Pointer moves in sequence *)

Section EventFacts.
Context {R : Rounding}.

Lemma requested_textures (σ : world) (k : Z) :
  gl_textures (gl (requested σ k)) =
    <[fresh (dom (gl_textures (gl σ))) := new_texture]> (gl_textures (gl σ)).
Proof. reflexivity. Qed.

Lemma pointer_moves_run (es : list MouseEvent) :
  ∀ σ : world,
    ∃ σ',
      pointer_moves es σ = (Return tt, σ')
      ∧ innerWidth σ' = innerWidth σ
      ∧ gl_textures (gl σ) ⊆ gl_textures (gl σ')
      ∧ size (gl_textures (gl σ')) =
          (size (gl_textures (gl σ))
           + length (filter (λ e, deployed_frame (innerWidth σ) e ≠ 0%Z) es))%nat
      ∧ length (images σ') =
          (length (images σ)
           + length (filter (λ e, deployed_frame (innerWidth σ) e ≠ 0%Z) es))%nat
      ∧ images σ `prefix_of` images σ'
      ∧ gl_texture_2d (gl σ') = gl_texture_2d (gl σ)
      ∧ gl_shaders (gl σ') = gl_shaders (gl σ)
      ∧ arrays σ' = arrays σ.
Proof.
  induction es as [| e es IH]; intros σ.
  - exists σ. cbn. rewrite !Nat.add_0_r.
    repeat split; done.
  - cbn [pointer_moves]. unfold mousemove_listener.
    rewrite (bind_return _ _ _ _ _ (handleImageShown_effect e (Some 1%Q) imageSequenceLength σ)).
    cbv zeta. cbn [default].
    fold (deployed_frame (innerWidth σ) e).
    rewrite filter_cons.
    destruct (decide (deployed_frame (innerWidth σ) e = 0)) as [E | Hne].
    + rewrite bool_decide_eq_true_2 by exact E.
      rewrite decide_False by (intros H; apply H, E).
      apply IH.
    + rewrite bool_decide_eq_false_2 by exact Hne.
      rewrite decide_True by exact Hne.
      destruct (IH (requested σ (deployed_frame (innerWidth σ) e)))
        as (σ' & Hrun & HW & Hsub & Hsize & Hlen & Hpre & Hb & Hsh & Har).
      exists σ'. split; [exact Hrun |].
      cbn [innerWidth requested set_console set_images set_gl] in HW, Hsize, Hlen.
      split; [exact HW |].
      rewrite requested_textures in Hsub, Hsize.
      pose proof (fresh_texture σ) as Hf.
      split; [etrans; [apply insert_subseteq, Hf | exact Hsub] |].
      rewrite map_size_insert_None in Hsize by exact Hf.
      split; [cbn [length]; lia |].
      cbn [images requested set_console set_images set_gl] in Hlen, Hpre.
      rewrite length_app in Hlen. cbn [length] in Hlen.
      split; [cbn [length]; lia |].
      split; [etrans; [apply prefix_app_r; reflexivity | exact Hpre] |].
      split; [exact Hb |]. split; [exact Hsh | exact Har].
Qed.

Lemma pointer_moves_requests (es : list MouseEvent) :
  ∀ σ : world,
    (0 < innerWidth σ)%Q ->
    Forall (λ e, (0 <= clientX e)%Q ∧ (clientX e <= innerWidth σ)%Q) es ->
    ∃ new : list image,
      images (snd (pointer_moves es σ)) = images σ ++ new
      ∧ length new = length (filter (λ e, deployed_frame (innerWidth σ) e ≠ 0%Z) es)
      ∧ Forall (λ img, ∃ j : Z, 1 <= j <= 118 ∧ img_src img = frame_url j) new.
Proof.
  induction es as [| e es IH]; intros σ HW Hes.
  - exists []. cbn. rewrite app_nil_r. repeat split. constructor.
  - apply Forall_cons in Hes as [[Lx Ux] Hes].
    cbn [pointer_moves]. unfold mousemove_listener.
    rewrite (bind_return _ _ _ _ _ (handleImageShown_effect e (Some 1%Q) imageSequenceLength σ)).
    cbv zeta. cbn [default].
    fold (deployed_frame (innerWidth σ) e).
    rewrite filter_cons.
    pose proof (deployed_frame_range _ e HW Lx Ux) as Hr.
    destruct (decide (deployed_frame (innerWidth σ) e = 0)) as [E | Hne].
    + rewrite bool_decide_eq_true_2 by exact E.
      rewrite decide_False by (intros H; apply H, E).
      apply IH; assumption.
    + rewrite bool_decide_eq_false_2 by exact Hne.
      rewrite decide_True by exact Hne.
      destruct (IH (requested σ (deployed_frame (innerWidth σ) e)))
        as (new & Hi & Hl & Hf); [exact HW | exact Hes |].
      cbn [innerWidth images requested set_console set_images set_gl] in Hi, Hl.
      exists (Image (frame_url (deployed_frame (innerWidth σ) e))
                (fresh (dom (gl_textures (gl σ)))) :: new).
      split; [etrans; [exact Hi | rewrite <- app_assoc; reflexivity] |].
      split; [cbn [length]; rewrite Hl; reflexivity |].
      constructor; [| exact Hf].
      exists (deployed_frame (innerWidth σ) e). split; [lia | reflexivity].
Qed.

(** X8: Textures pile up: after any sequence of pointer moves inside a
    viewport of positive width, every texture that existed is still there,
    untouched, and there is one more texture and one more requested image
    for each move whose frame was not 0; every new request is for one of
    the frames 1 to 118.  Pointer moves on their own never change what is
    bound to [TEXTURE_2D]. *)
Theorem pointer_moves_accumulate (σ : world) (es : list MouseEvent) :
  (0 < innerWidth σ)%Q ->
  Forall (λ e, (0 <= clientX e)%Q ∧ (clientX e <= innerWidth σ)%Q) es ->
  ∃ (σ' : world) (new : list image),
    pointer_moves es σ = (Return tt, σ')
    ∧ gl_textures (gl σ) ⊆ gl_textures (gl σ')
    ∧ size (gl_textures (gl σ')) =
        (size (gl_textures (gl σ))
         + length (filter (λ e, deployed_frame (innerWidth σ) e ≠ 0%Z) es))%nat
    ∧ images σ' = images σ ++ new
    ∧ length new = length (filter (λ e, deployed_frame (innerWidth σ) e ≠ 0%Z) es)
    ∧ Forall (λ img, ∃ j : Z, 1 <= j <= 118 ∧ img_src img = frame_url j) new
    ∧ gl_texture_2d (gl σ') = gl_texture_2d (gl σ).
Proof.
  intros HW Hes.
  destruct (pointer_moves_run es σ) as (σ' & Hrun & _ & Hsub & Hsize & _ & _ & Hb & _).
  destruct (pointer_moves_requests es σ HW Hes) as (new & Hi & Hl & Hf).
  rewrite Hrun in Hi. cbn [snd] in Hi.
  exists σ', new. auto 10.
Qed.

(** X6: A load that never completes: [loadTexture] returns at once a texture
    that did not exist before, registers one image with the URL and leaves
    the [TEXTURE_2D] binding alone; the texture holds no image, and no
    number of pointer moves gives it one. *)
Theorem texture_unpopulated_without_completion (σ : world) (url : string) (es : list MouseEvent) :
  ∃ (texture : N) (σ1 σ2 : world),
    loadTexture url σ = (Return texture, σ1)
    ∧ gl_textures (gl σ) !! texture = None
    ∧ images σ1 = images σ ++ [Image url texture]
    ∧ gl_texture_2d (gl σ1) = gl_texture_2d (gl σ)
    ∧ pointer_moves es σ1 = (Return tt, σ2)
    ∧ gl_textures (gl σ2) !! texture = Some new_texture
    ∧ tex_image new_texture = None.
Proof.
  eexists _, _.
  destruct (pointer_moves_run es
              (set_images (λ l, l ++ [Image url (fresh (dom (gl_textures (gl σ))))])
                 (set_gl (set_textures <[fresh (dom (gl_textures (gl σ))) := new_texture]>) σ)))
    as (σ2 & Hrun & _ & Hsub & _).
  exists σ2. split; [apply loadTexture_effect |].
  split; [apply fresh_texture |].
  split; [reflexivity |]. split; [reflexivity |]. split; [exact Hrun |].
  split; [| reflexivity].
  apply (lookup_weaken _ _ _ _ (lookup_insert_eq _ _ _) Hsub).
Qed.

(** X7: A requested frame is shown once its image is there: after a pointer
    move inside a viewport of positive width, with [min] and [max] of
    magnitude up to [2^25] and a frame [k] other than 0, the image
    [assets/images/image-k.webp] is requested for a new texture; once the
    callback of that image has run, the new texture is the one bound to
    [TEXTURE_2D], and the textures that existed before the move are
    untouched. *)
Theorem requested_frame_is_bound
    (σ : world) (e : MouseEvent) (min : option Q) (max : Q) (k : Z) (img : image_data) :
  (0 < innerWidth σ)%Q ->
  (0 <= clientX e)%Q ->
  (clientX e <= innerWidth σ)%Q ->
  (Qabs (default 1%Q min) <= 33554432)%Q ->
  (Qabs max <= 33554432)%Q ->
  textureIndex e min max σ = (Return k, σ) ->
  k ≠ 0 ->
  ∃ (texture : N) (σ1 : world),
    handleImageShown e min max σ = (Return tt, σ1)
    ∧ Z.abs k <= 2 ^ 50
    ∧ gl_textures (gl σ) !! texture = None
    ∧ images σ1 = images σ ++ [Image (frame_url k) texture]
    ∧ let σ2 := snd (loadTexture_onload texture img σ1) in
      gl_texture_2d (gl σ2) = Some texture
      ∧ (∀ t o, gl_textures (gl σ) !! t = Some o -> gl_textures (gl σ2) !! t = Some o).
Proof.
  intros HW Lx Ux Hmin Hmax Hk Hne.
  pose proof (textureIndex_bounded σ e min max k HW Lx Ux Hmin Hmax Hk) as Hb.
  rewrite textureIndex_run in Hk. injection Hk as Hk.
  eexists _, _.
  split.
  { rewrite handleImageShown_effect. cbv zeta. rewrite Hk.
    rewrite bool_decide_eq_false_2 by exact Hne. reflexivity. }
  split; [exact Hb |].
  pose proof (fresh_texture σ) as Hf.
  split; [exact Hf |].
  split; [reflexivity |].
  cbv zeta. rewrite loadTexture_onload_effect. cbn [snd].
  split; [reflexivity |].
  intros t o Ht. cbn.
  assert (t ≠ fresh (dom (gl_textures (gl σ)))) by congruence.
  rewrite lookup_alter_ne, lookup_insert_ne by congruence. exact Ht.
Qed.

End EventFacts.

Lemma pointer_moves_accumulate_witness :
  ∃ (σ' : world) (new : list image),
    @pointer_moves binary64 [{| clientX := 0 |}; {| clientX := 480 |}; {| clientX := 1920 |}] page
      = (Return tt, σ')
    ∧ size (gl_textures (gl σ')) = 2%nat
    ∧ images σ' = new
    ∧ length new = 2%nat
    ∧ Forall (λ img, ∃ j : Z, 1 <= j <= 118 ∧ img_src img = frame_url j) new.
Proof.
  destruct (@pointer_moves_accumulate binary64 page
              [{| clientX := 0 |}; {| clientX := 480 |}; {| clientX := 1920 |}])
    as (σ' & new & Hrun & _ & Hsize & Hi & Hl & Hf & _).
  - reflexivity.
  - repeat (constructor; [split; simpl; lra |]). constructor.
  - exists σ', new. split; [exact Hrun |].
    split; [rewrite Hsize; vm_compute; reflexivity |].
    split; [exact Hi |].
    split; [rewrite Hl; vm_compute; reflexivity | exact Hf].
Defined.

Lemma requested_frame_is_bound_witness :
  ∃ (texture : N) (σ1 : world),
    @handleImageShown binary64 {| clientX := 480 |} None 118 page = (Return tt, σ1)
    ∧ Z.abs 29 <= 2 ^ 50
    ∧ gl_textures (gl page) !! texture = None
    ∧ images σ1 = images page ++ [Image (frame_url 29) texture]
    ∧ let σ2 := snd (loadTexture_onload texture (ImageData 1920 1080) σ1) in
      gl_texture_2d (gl σ2) = Some texture
      ∧ (∀ t o, gl_textures (gl page) !! t = Some o -> gl_textures (gl σ2) !! t = Some o).
Proof.
  apply (@requested_frame_is_bound binary64 page {| clientX := 480 |} None 118 29).
  - reflexivity.
  - simpl. lra.
  - simpl. lra.
  - vm_compute. discriminate.
  - vm_compute. discriminate.
  - vm_compute. reflexivity.
  - discriminate.
Defined.

(** ** Shaders, one after the other *)

Lemma createShader_effect (σ : world) (type : shader_type) (source : string) :
  createShader type source σ =
    match gl_compiler (gl σ) type source with
    | (true, log) =>
        (Return (VShader (fresh (dom (gl_shaders (gl σ))))),
         set_gl (set_shaders
                   <[fresh (dom (gl_shaders (gl σ))) := ShaderObj type source true log]>) σ)
    | (false, log) =>
        (Return VUndefined, set_console (λ c, c ++ [[VStr log]]) σ)
    end.
Proof.
  pose (h := fresh (dom (gl_shaders (gl σ)))).
  assert (Hf : gl_shaders (gl σ) !! h = None).
  { apply not_elem_of_dom. apply is_fresh. }
  destruct σ as [ar [sh tx b cp] im co iw ck]; cbn in *.
  destruct (cp type source) as [status log] eqn:Hc.
  cbv [createShader gl_.createShader gl_.shaderSource gl_.compileShader
       gl_.getShaderParameter_COMPILE_STATUS gl_.getShaderInfoLog gl_.deleteShader
       console_.log mbind JS_bind mret JS_ret modify gets set_gl set_shaders set_console
       gl gl_texture_2d gl_textures gl_shaders gl_compiler arrays images console
       innerWidth clock].
  fold h.
  rewrite !alter_insert_eq. cbn [sh_type sh_source sh_compile_status sh_info_log].
  rewrite Hc, !lookup_insert_eq. cbn [fmap option_fmap option_map default sh_compile_status].
  destruct status.
  - reflexivity.
  - cbn. rewrite lookup_insert_eq. cbn.
    rewrite (delete_insert_id _ _ _ Hf). reflexivity.
Qed.

(** X12: A rejected source leaves no trace in the rendering context, and an
    accepted one adds its shader to it and changes nothing else: the
    shaders that existed keep their handles and their state.  In both
    cases textures, arrays and images are as before. *)
Theorem createShader_frame (σ : world) (type : shader_type) (source : string) :
  ∃ (v : value) (σ' : world),
    createShader type source σ = (Return v, σ')
    ∧ (v = VUndefined -> gl σ' = gl σ)
    ∧ gl_shaders (gl σ) ⊆ gl_shaders (gl σ')
    ∧ gl_textures (gl σ') = gl_textures (gl σ)
    ∧ gl_texture_2d (gl σ') = gl_texture_2d (gl σ)
    ∧ gl_compiler (gl σ') = gl_compiler (gl σ)
    ∧ arrays σ' = arrays σ
    ∧ images σ' = images σ.
Proof.
  rewrite createShader_effect.
  destruct (gl_compiler (gl σ) type source) as [[|] log].
  - eexists _, _. split; [reflexivity |].
    split; [discriminate |].
    split; [cbn; apply insert_subseteq, not_elem_of_dom, is_fresh |].
    repeat split.
  - eexists _, _. split; [reflexivity |].
    split; [reflexivity |]. split; [reflexivity |]. repeat split.
Qed.

(** X13: The two shaders of a program: when the driver accepts both sources,
    two calls of [createShader] in a row return two different handles, and
    each shader holds its own type and source, compiled; the second call
    does not disturb the first shader. *)
Theorem createShader_twice
    (σ : world) (type1 type2 : shader_type) (source1 source2 log1 log2 : string) :
  gl_compiler (gl σ) type1 source1 = (true, log1) ->
  gl_compiler (gl σ) type2 source2 = (true, log2) ->
  ∃ (shader1 shader2 : N) (σ' : world),
    (v1 ← createShader type1 source1;
     v2 ← createShader type2 source2;
     mret (v1, v2)) σ = (Return (VShader shader1, VShader shader2), σ')
    ∧ shader1 ≠ shader2
    ∧ gl_shaders (gl σ') !! shader1 = Some (ShaderObj type1 source1 true log1)
    ∧ gl_shaders (gl σ') !! shader2 = Some (ShaderObj type2 source2 true log2)
    ∧ console σ' = console σ.
Proof.
  intros H1 H2.
  pose proof (createShader_effect σ type1 source1) as E1. rewrite H1 in E1.
  set (h1 := fresh (dom (gl_shaders (gl σ)))) in *.
  set (σ1 := set_gl (set_shaders <[h1 := ShaderObj type1 source1 true log1]>) σ) in *.
  pose proof (createShader_effect σ1 type2 source2) as E2.
  change (gl_compiler (gl σ1)) with (gl_compiler (gl σ)) in E2. rewrite H2 in E2.
  set (h2 := fresh (dom (gl_shaders (gl σ1)))) in *.
  assert (Hf2 : gl_shaders (gl σ1) !! h2 = None) by (apply not_elem_of_dom, is_fresh).
  assert (Hne : h1 ≠ h2).
  { intros E. rewrite <- E in Hf2. cbn in Hf2. rewrite lookup_insert_eq in Hf2. discriminate. }
  exists h1, h2. eexists. split.
  - rewrite (bind_return _ _ _ _ _ E1). rewrite (bind_return _ _ _ _ _ E2). reflexivity.
  - split; [exact Hne |]. cbn.
    split; [rewrite lookup_insert_ne by congruence; apply lookup_insert_eq |].
    split; [apply lookup_insert_eq | reflexivity].
Qed.

Lemma createShader_twice_witness :
  ∃ (shader1 shader2 : N) (σ' : world),
    (v1 ← createShader VERTEX_SHADER "void main() { gl_Position = vec4(0); }";
     v2 ← createShader FRAGMENT_SHADER "void main() { gl_FragColor = vec4(1); }";
     mret (v1, v2)) page = (Return (VShader shader1, VShader shader2), σ')
    ∧ shader1 ≠ shader2
    ∧ gl_shaders (gl σ') !! shader1 =
        Some (ShaderObj VERTEX_SHADER "void main() { gl_Position = vec4(0); }" true "")
    ∧ gl_shaders (gl σ') !! shader2 =
        Some (ShaderObj FRAGMENT_SHADER "void main() { gl_FragColor = vec4(1); }" true "")
    ∧ console σ' = console page.
Proof.
  apply (createShader_twice page VERTEX_SHADER FRAGMENT_SHADER
           "void main() { gl_Position = vec4(0); }"
           "void main() { gl_FragColor = vec4(1); }" "" "").
  - reflexivity.
  - reflexivity.
Defined.

(** ** [repeat] of a [repeat] *)

Lemma concat_times_app {A : Type} (a b : nat) (p : list A) :
  concat_times (a + b) p = concat_times a p ++ concat_times b p.
Proof.
  unfold concat_times. induction a as [| a IH]; simpl; [reflexivity |].
  simpl in IH. rewrite IH, app_assoc. reflexivity.
Qed.

Lemma concat_times_mul {A : Type} (m n : nat) (p : list A) :
  concat_times m (concat_times n p) = concat_times (m * n) p.
Proof.
  induction m as [| m IH]; [reflexivity |].
  cbn [Nat.mul]. rewrite concat_times_app, <- IH. reflexivity.
Qed.

(** X14: Repeating a repetition: [m] copies of [n] copies of a pattern are
    [m * n] copies of it, as long as every array on the way fits; the
    pattern and every other array are left as they were. *)
Theorem repeat_repeat (σ : world) (m n : Z) (pattern : N) (p : list elem) :
  arrays σ !! pattern = Some p ->
  0 <= n <= Array.max_length ->
  0 <= m <= Array.max_length ->
  n * Z.of_nat (length p) <= Array.max_length ->
  m * n * Z.of_nat (length p) <= Array.max_length ->
  ∃ (r1 r2 : N) (σ1 σ2 : world),
    repeat n pattern σ = (Return r1, σ1)
    ∧ repeat m r1 σ1 = (Return r2, σ2)
    ∧ arrays σ2 !! r2 = Some (concat_times (Z.to_nat (m * n)) p)
    ∧ arrays σ2 !! pattern = Some p
    ∧ only_allocates σ σ2.
Proof.
  intros Hp Hn Hm Hfit1 Hfit2.
  destruct (repeat_run σ n pattern p Hp)
    as [(_ & _ & r1 & σ1 & Hrun1 & Hr1 & _ & Hext1) | [Hbad _]]; [| lia].
  destruct (repeat_run σ1 m r1 _ Hr1)
    as [(_ & _ & r2 & σ2 & Hrun2 & Hr2 & _ & Hext2) | [Hbad _]].
  - exists r1, r2, σ1, σ2. split; [exact Hrun1 |]. split; [exact Hrun2 |].
    pose proof (only_allocates_trans _ _ _ Hext1 Hext2) as Hext.
    split; [| split; [exact (only_allocates_lookup _ _ _ _ Hext Hp) | exact Hext]].
    rewrite Hr2, concat_times_mul. do 2 f_equal. lia.
  - rewrite concat_times_length in Hbad. lia.
Qed.

Lemma repeat_repeat_witness :
  ∃ (r1 r2 : N) (σ1 σ2 : world),
    repeat 2 0%N (page_with uv_literal) = (Return r1, σ1)
    ∧ repeat 3 r1 σ1 = (Return r2, σ2)
    ∧ arrays σ2 !! r2 = Some (concat_times 6 uv_literal)
    ∧ arrays σ2 !! 0%N = Some uv_literal
    ∧ only_allocates (page_with uv_literal) σ2.
Proof.
  apply (repeat_repeat (page_with uv_literal) 3 2 0%N uv_literal).
  - reflexivity.
  - unfold Array.max_length. lia.
  - unfold Array.max_length. lia.
  - unfold Array.max_length. cbn. lia.
  - unfold Array.max_length. cbn. lia.
Defined.

(** ** Buffers and vertex attributes *)

Lemma fresh_buffer (pl : pipeline) : pl_buffers pl !! fresh (dom (pl_buffers pl)) = None.
Proof. apply not_elem_of_dom, is_fresh. Qed.

Lemma GLP_bind_return {A B : Type} (m : GLP A) (f : A -> GLP B) (pl pl' : pipeline) (a : A) :
  m pl = (Return a, pl') -> (m ≫= f) pl = f a pl'.
Proof. intros H. unfold mbind, GLP_bind. rewrite H. reflexivity. Qed.

Lemma createBuffer_effect (target : buffer_target) (data : option buffer_source)
    (usage : buffer_usage) (pl : pipeline) :
  createBuffer target data usage pl =
    (Return (fresh (dom (pl_buffers pl))),
     set_bound target (Some (fresh (dom (pl_buffers pl))))
       (set_buffers
          <[fresh (dom (pl_buffers pl)) :=
              BufferObj (Some target) ((λ d, (d, usage)) <$> data)]> pl)).
Proof.
  pose proof (fresh_buffer pl) as Hf.
  set (b := fresh (dom (pl_buffers pl))) in *.
  unfold createBuffer.
  cbv [mbind GLP_bind mret GLP_ret gl_pipeline.createBuffer gl_pipeline.bindBuffer
       gl_pipeline.bufferData].
  fold b. cbn [pl_buffers set_buffers].
  rewrite lookup_insert_eq. cbn [buf_target buf_store].
  destruct pl as [bs ab eb ps vs mx]; cbn in *.
  destruct target, data as [d |]; cbn.
  all: unfold set_buffers; cbn.
  all: rewrite ?insert_insert_eq, ?alter_insert_eq; reflexivity.
Qed.

(** X15: [createBuffer] returns a buffer that did not exist, bound to the
    target and holding the data with its usage; with [null] for the data
    it returns the buffer all the same, bound and without a data store.
    The buffer that was bound to the target before is no longer bound; the
    other target, the other buffers and the vertex attributes are as they
    were. *)
Theorem createBuffer_binds (target : buffer_target) (data : option buffer_source)
    (usage : buffer_usage) (pl : pipeline) :
  ∃ (buffer : N) (pl' : pipeline),
    createBuffer target data usage pl = (Return buffer, pl')
    ∧ pl_buffers pl !! buffer = None
    ∧ pl_buffers pl' !! buffer =
        Some (BufferObj (Some target) ((λ d, (d, usage)) <$> data))
    ∧ bound_to pl' target = Some buffer
    ∧ (∀ t : buffer_target, t ≠ target -> bound_to pl' t = bound_to pl t)
    ∧ (∀ b : N, b ≠ buffer -> pl_buffers pl' !! b = pl_buffers pl !! b)
    ∧ pl_vertex_attribs pl' = pl_vertex_attribs pl.
Proof.
  eexists _, _. split; [apply createBuffer_effect |].
  split; [apply fresh_buffer |].
  destruct pl as [bs ab eb ps vs mx].
  split; [destruct target; cbn; apply lookup_insert_eq |].
  split; [destruct target; reflexivity |].
  split; [intros t Ht; destruct target, t; try congruence; reflexivity |].
  split; [| destruct target; reflexivity].
  intros b Hb. destruct target; cbn in *; apply lookup_insert_ne; congruence.
Qed.

Lemma getAttribLocation_found (pl : pipeline) (program : N) (p : program_obj)
    (name : string) (i : N) :
  pl_programs pl !! program = Some p ->
  prog_attributes p !! name = Some i ->
  gl_pipeline.getAttribLocation program name pl = (Return (Z.of_N i), pl).
Proof. intros Hp Hi. unfold gl_pipeline.getAttribLocation. rewrite Hp, Hi. reflexivity. Qed.

Lemma enableVertexAttribArray_valid (pl : pipeline) (i : N) :
  valid_location pl i ->
  gl_pipeline.enableVertexAttribArray (Z.of_N i) pl =
    (Return tt,
     set_attrib i
       (VertexAttrib true (va_buffer (attrib_at pl i)) (va_size (attrib_at pl i))
          (va_type (attrib_at pl i)) (va_normalized (attrib_at pl i))
          (va_stride (attrib_at pl i)) (va_offset (attrib_at pl i))) pl).
Proof.
  intros [Hi Hmax]. unfold gl_pipeline.enableVertexAttribArray, ToUint32. cbv zeta.
  rewrite Z.mod_small by lia.
  rewrite bool_decide_eq_true_2 by exact Hi.
  rewrite N2Z.id. reflexivity.
Qed.

Lemma bindBuffer_array_effect (pl : pipeline) (buffer : N) (o : buffer_obj) :
  pl_buffers pl !! buffer = Some o ->
  buf_target o ≠ Some ELEMENT_ARRAY_BUFFER ->
  gl_pipeline.bindBuffer ARRAY_BUFFER buffer pl =
    (Return tt,
     set_bound ARRAY_BUFFER (Some buffer)
       (set_buffers <[buffer := BufferObj (Some ARRAY_BUFFER) (buf_store o)]> pl)).
Proof.
  intros Ho Ht. unfold gl_pipeline.bindBuffer. rewrite Ho.
  destruct o as [[[|] |] st]; cbn in *.
  - rewrite decide_True by reflexivity.
    unfold set_buffers. rewrite (insert_id _ _ _ Ho). destruct pl; reflexivity.
  - congruence.
  - reflexivity.
Qed.

Lemma vertexAttribPointer_valid (pl : pipeline) (i : N) (size : Z) (type : component_type)
    (normalized : bool) (stride offset : Z) :
  valid_location pl i ->
  layout_ok size type stride offset ->
  is_Some (pl_array_buffer pl) ->
  gl_pipeline.vertexAttribPointer (Z.of_N i) size type normalized stride offset pl =
    (Return tt,
     set_attrib i
       (VertexAttrib (va_enabled (attrib_at pl i)) (pl_array_buffer pl)
          size type normalized stride offset) pl).
Proof.
  intros [Hi Hmax] (H1 & H2 & H3 & H4 & H5) [b Hb].
  unfold gl_pipeline.vertexAttribPointer, ToUint32. cbv zeta.
  rewrite Z.mod_small by lia.
  rewrite bool_decide_eq_true_2.
  - rewrite N2Z.id. reflexivity.
  - split; [exact Hi |]. unfold gl_pipeline.valid_layout.
    repeat split; try assumption; try lia. congruence.
Qed.

Lemma enableAttribute_found
    (pl : pipeline) (program : N) (p : program_obj) (name : string) (i buffer : N)
    (size : option Z) (type : option component_type) (normalized : option bool)
    (stride offset : option Z) :
  pl_programs pl !! program = Some p ->
  prog_attributes p !! name = Some i ->
  valid_location pl i ->
  array_bindable pl buffer ->
  layout_ok (default 3 size) (default FLOAT type) (default 0 stride) (default 0 offset) ->
  ∃ pl' : pipeline,
    enableAttribute program name buffer size type normalized stride offset pl
      = (Return (Z.of_N i), pl')
    ∧ attrib_at pl' i =
        VertexAttrib true (Some buffer) (default 3 size) (default FLOAT type)
          (default false normalized) (default 0 stride) (default 0 offset)
    ∧ pl_array_buffer pl' = Some buffer
    ∧ (∀ j : N, j ≠ i -> attrib_at pl' j = attrib_at pl j)
    ∧ (∀ b : N, buf_store <$> pl_buffers pl' !! b = buf_store <$> pl_buffers pl !! b)
    ∧ pl_programs pl' = pl_programs pl
    ∧ pl_max_vertex_attribs pl' = pl_max_vertex_attribs pl
    ∧ (∀ b : N, array_bindable pl b -> array_bindable pl' b).
Proof.
  intros Hp Hi Hloc (o & Ho & Ht) Hlay.
  unfold enableAttribute. cbv zeta.
  rewrite (GLP_bind_return _ _ _ _ _ (getAttribLocation_found _ _ _ _ _ Hp Hi)).
  rewrite (GLP_bind_return _ _ _ _ _ (enableVertexAttribArray_valid _ _ Hloc)).
  match goal with |- context [set_attrib i ?a pl] => set (pl1 := set_attrib i a pl) end.
  assert (Ho1 : pl_buffers pl1 !! buffer = Some o) by exact Ho.
  rewrite (GLP_bind_return _ _ _ _ _ (bindBuffer_array_effect _ _ _ Ho1 Ht)).
  match goal with |- context [set_bound ARRAY_BUFFER ?b ?q] =>
    set (pl2 := set_bound ARRAY_BUFFER b q) end.
  assert (Hloc2 : valid_location pl2 i) by exact Hloc.
  assert (Hb2 : is_Some (pl_array_buffer pl2)) by (eexists; reflexivity).
  rewrite (GLP_bind_return _ _ _ _ _
             (vertexAttribPointer_valid _ _ _ _ (default false normalized) _ _ Hloc2 Hlay Hb2)).
  eexists. split; [reflexivity |].
  split.
  { unfold attrib_at. cbn. rewrite !lookup_insert_eq. reflexivity. }
  split; [reflexivity |].
  split.
  { intros j Hj. unfold attrib_at. cbn.
    rewrite !lookup_insert_ne by congruence. reflexivity. }
  split.
  { intros b. cbn. destruct (decide (b = buffer)) as [-> | Hne].
    - rewrite lookup_insert_eq, Ho. reflexivity.
    - rewrite lookup_insert_ne by congruence. reflexivity. }
  split; [reflexivity |]. split; [reflexivity |].
  intros b (ob & Hob & Htb). unfold array_bindable. cbn.
  destruct (decide (b = buffer)) as [-> | Hne].
  - eexists. rewrite lookup_insert_eq. split; [reflexivity | discriminate].
  - exists ob. rewrite lookup_insert_ne by congruence. split; assumption.
Qed.

(** X16: [enableAttribute] for an attribute that the program has: it returns
    the location; afterwards the attribute is enabled and reads from the
    buffer given, with the layout given (3 floats, not normalized, tightly
    packed from the start of the buffer, where the caller leaves the
    layout out), and the buffer is the one bound to [ARRAY_BUFFER].  What
    was bound before the call does not matter; the other attributes are
    untouched. *)
Theorem enableAttribute_points_at_buffer
    (pl : pipeline) (program : N) (p : program_obj) (name : string) (i buffer : N)
    (size : option Z) (type : option component_type) (normalized : option bool)
    (stride offset : option Z) :
  pl_programs pl !! program = Some p ->
  prog_attributes p !! name = Some i ->
  valid_location pl i ->
  array_bindable pl buffer ->
  layout_ok (default 3 size) (default FLOAT type) (default 0 stride) (default 0 offset) ->
  ∃ pl' : pipeline,
    enableAttribute program name buffer size type normalized stride offset pl
      = (Return (Z.of_N i), pl')
    ∧ attrib_at pl' i =
        VertexAttrib true (Some buffer) (default 3 size) (default FLOAT type)
          (default false normalized) (default 0 stride) (default 0 offset)
    ∧ pl_array_buffer pl' = Some buffer
    ∧ (∀ j : N, j ≠ i -> attrib_at pl' j = attrib_at pl j)
    ∧ (∀ b : N, buf_store <$> pl_buffers pl' !! b = buf_store <$> pl_buffers pl !! b).
Proof.
  intros Hp Hi Hloc Hb Hlay.
  destruct (enableAttribute_found pl program p name i buffer size type normalized
              stride offset Hp Hi Hloc Hb Hlay)
    as (pl' & Hrun & Ha & Hbound & Hothers & Hstores & _).
  exists pl'. auto.
Qed.

Lemma enableAttribute_points_at_buffer_witness :
  let pl := snd (createBuffer ARRAY_BUFFER (Some [0; 0; 128; 63]) STATIC_DRAW quad_pipeline) in
  ∃ pl' : pipeline,
    enableAttribute 0%N "position" 0%N None None None None None pl = (Return 0, pl')
    ∧ attrib_at pl' 0%N = VertexAttrib true (Some 0%N) 3 FLOAT false 0 0
    ∧ pl_array_buffer pl' = Some 0%N.
Proof.
  cbv zeta.
  destruct (enableAttribute_points_at_buffer
              (snd (createBuffer ARRAY_BUFFER (Some [0; 0; 128; 63]) STATIC_DRAW quad_pipeline))
              0%N (ProgramObj {[ "position" := 0%N; "uv" := 1%N ]}) "position" 0%N 0%N
              None None None None None)
    as (pl' & Hrun & Ha & Hb & _).
  - reflexivity.
  - reflexivity.
  - split; vm_compute; reflexivity.
  - eexists. split; [reflexivity | discriminate].
  - repeat split; cbn; lia.
  - exists pl'. auto.
Defined.

Lemma getAttribLocation_missing (pl : pipeline) (program : N) (name : string) :
  (∀ p : program_obj, pl_programs pl !! program = Some p -> prog_attributes p !! name = None) ->
  gl_pipeline.getAttribLocation program name pl = (Return (-1), pl).
Proof.
  intros H. unfold gl_pipeline.getAttribLocation.
  destruct (pl_programs pl !! program) as [p |]; [| reflexivity].
  rewrite (H p eq_refl). reflexivity.
Qed.

Lemma ToUint32_minus_one : ToUint32 (-1) = 2 ^ 32 - 1.
Proof. reflexivity. Qed.

(** X17: [enableAttribute] for a name that the program has no attribute for,
    or for a program that does not exist: it returns -1 and changes no
    vertex attribute, and still it leaves the buffer given bound to
    [ARRAY_BUFFER]. *)
Theorem enableAttribute_unknown_name
    (pl : pipeline) (program : N) (name : string) (buffer : N)
    (size : option Z) (type : option component_type) (normalized : option bool)
    (stride offset : option Z) :
  (∀ p : program_obj, pl_programs pl !! program = Some p -> prog_attributes p !! name = None) ->
  pl_max_vertex_attribs pl < 2 ^ 32 ->
  array_bindable pl buffer ->
  ∃ pl' : pipeline,
    enableAttribute program name buffer size type normalized stride offset pl
      = (Return (-1), pl')
    ∧ pl_vertex_attribs pl' = pl_vertex_attribs pl
    ∧ pl_array_buffer pl' = Some buffer.
Proof.
  intros Hmiss Hmax (o & Ho & Ht).
  unfold enableAttribute. cbv zeta.
  rewrite (GLP_bind_return _ _ _ _ _ (getAttribLocation_missing _ _ _ Hmiss)).
  assert (E1 : gl_pipeline.enableVertexAttribArray (-1) pl = (Return tt, pl)).
  { unfold gl_pipeline.enableVertexAttribArray. cbv zeta.
    rewrite ToUint32_minus_one, bool_decide_eq_false_2 by lia. reflexivity. }
  rewrite (GLP_bind_return _ _ _ _ _ E1).
  rewrite (GLP_bind_return _ _ _ _ _ (bindBuffer_array_effect _ _ _ Ho Ht)).
  match goal with |- context [set_bound ARRAY_BUFFER ?b ?q] =>
    set (pl2 := set_bound ARRAY_BUFFER b q) end.
  assert (E2 : ∀ s t n st off,
             gl_pipeline.vertexAttribPointer (-1) s t n st off pl2 = (Return tt, pl2)).
  { intros. unfold gl_pipeline.vertexAttribPointer. cbv zeta.
    rewrite ToUint32_minus_one, bool_decide_eq_false_2; [reflexivity |].
    intros [H _]. change (pl_max_vertex_attribs pl2) with (pl_max_vertex_attribs pl) in H. lia. }
  rewrite (GLP_bind_return _ _ _ _ _ (E2 _ _ _ _ _)).
  exists pl2. split; [reflexivity |]. split; reflexivity.
Qed.

Lemma enableAttribute_unknown_name_witness :
  let pl := snd (createBuffer ARRAY_BUFFER (Some [0; 0; 128; 63]) STATIC_DRAW
                   (snd (createBuffer ARRAY_BUFFER (Some [1]) STATIC_DRAW quad_pipeline))) in
  pl_array_buffer pl = Some 1%N
  ∧ ∃ pl' : pipeline,
      enableAttribute 0%N "normal" 0%N None None None None None pl = (Return (-1), pl')
      ∧ pl_vertex_attribs pl' = pl_vertex_attribs pl
      ∧ pl_array_buffer pl' = Some 0%N.
Proof.
  cbv zeta. split; [reflexivity |].
  apply enableAttribute_unknown_name.
  - intros p Hp. vm_compute in Hp. injection Hp as <-. reflexivity.
  - vm_compute. reflexivity.
  - eexists. split; [reflexivity | discriminate].
Defined.

(** X18: [enableAttribute] with a layout that the context refuses (a size
    outside 1..4, a stride above 255 or an offset or stride that is no
    multiple of the component size): it returns the location as if
    nothing were wrong; the attribute is enabled, and has still the
    buffer and the layout that it had before the call. *)
Theorem enableAttribute_refused_layout
    (pl : pipeline) (program : N) (p : program_obj) (name : string) (i buffer : N)
    (size : option Z) (type : option component_type) (normalized : option bool)
    (stride offset : option Z) :
  pl_programs pl !! program = Some p ->
  prog_attributes p !! name = Some i ->
  valid_location pl i ->
  array_bindable pl buffer ->
  ¬ layout_ok (default 3 size) (default FLOAT type) (default 0 stride) (default 0 offset) ->
  ∃ pl' : pipeline,
    enableAttribute program name buffer size type normalized stride offset pl
      = (Return (Z.of_N i), pl')
    ∧ attrib_at pl' i =
        VertexAttrib true (va_buffer (attrib_at pl i)) (va_size (attrib_at pl i))
          (va_type (attrib_at pl i)) (va_normalized (attrib_at pl i))
          (va_stride (attrib_at pl i)) (va_offset (attrib_at pl i))
    ∧ pl_array_buffer pl' = Some buffer.
Proof.
  intros Hp Hi Hloc (o & Ho & Ht) Hlay.
  unfold enableAttribute. cbv zeta.
  rewrite (GLP_bind_return _ _ _ _ _ (getAttribLocation_found _ _ _ _ _ Hp Hi)).
  rewrite (GLP_bind_return _ _ _ _ _ (enableVertexAttribArray_valid _ _ Hloc)).
  match goal with |- context [set_attrib i ?a pl] => set (pl1 := set_attrib i a pl) end.
  assert (Ho1 : pl_buffers pl1 !! buffer = Some o) by exact Ho.
  rewrite (GLP_bind_return _ _ _ _ _ (bindBuffer_array_effect _ _ _ Ho1 Ht)).
  match goal with |- context [set_bound ARRAY_BUFFER ?b ?q] =>
    set (pl2 := set_bound ARRAY_BUFFER b q) end.
  assert (E : gl_pipeline.vertexAttribPointer (Z.of_N i) (default 3 size) (default FLOAT type)
                (default false normalized) (default 0 stride) (default 0 offset) pl2
              = (Return tt, pl2)).
  { unfold gl_pipeline.vertexAttribPointer. cbv zeta.
    rewrite bool_decide_eq_false_2; [reflexivity |].
    intros [_ (H1 & H2 & H3 & H4 & H5 & _)]. apply Hlay. repeat split; assumption || lia. }
  rewrite (GLP_bind_return _ _ _ _ _ E).
  exists pl2. split; [reflexivity |].
  split; [| reflexivity].
  unfold attrib_at. cbn. rewrite lookup_insert_eq. reflexivity.
Qed.

Lemma enableAttribute_refused_layout_witness :
  let pl := snd (createBuffer ARRAY_BUFFER (Some [0; 0; 128; 63]) STATIC_DRAW quad_pipeline) in
  ∃ pl' : pipeline,
    enableAttribute 0%N "uv" 0%N (Some 2) None None (Some 6) None pl = (Return 1, pl')
    ∧ attrib_at pl' 1%N = VertexAttrib true None 4 FLOAT false 0 0
    ∧ pl_array_buffer pl' = Some 0%N.
Proof.
  cbv zeta.
  apply (enableAttribute_refused_layout
           (snd (createBuffer ARRAY_BUFFER (Some [0; 0; 128; 63]) STATIC_DRAW quad_pipeline))
           0%N (ProgramObj {[ "position" := 0%N; "uv" := 1%N ]}) "uv" 1%N 0%N
           (Some 2) None None (Some 6) None).
  - reflexivity.
  - reflexivity.
  - split; vm_compute; reflexivity.
  - eexists. split; [reflexivity | discriminate].
  - intros (_ & _ & _ & H & _). cbn in H. discriminate H.
Defined.

(** X20: Two buffers, two attributes: when both buffers are created first and
    the attributes are enabled afterwards, each attribute reads from its
    own buffer with its own data, although the second buffer was the one
    bound to [ARRAY_BUFFER] when the first attribute was described. *)
Theorem attributes_keep_their_buffers
    (pl : pipeline) (program : N) (p : program_obj) (name1 name2 : string) (i j : N)
    (data1 data2 : buffer_source) (size1 size2 : Z) :
  pl_programs pl !! program = Some p ->
  prog_attributes p !! name1 = Some i ->
  prog_attributes p !! name2 = Some j ->
  i ≠ j ->
  valid_location pl i ->
  valid_location pl j ->
  1 <= size1 <= 4 ->
  1 <= size2 <= 4 ->
  ∃ (buffer1 buffer2 : N) (pl' : pipeline),
    (buffer1 ← createBuffer ARRAY_BUFFER (Some data1) STATIC_DRAW;
     buffer2 ← createBuffer ARRAY_BUFFER (Some data2) STATIC_DRAW;
     location1 ← enableAttribute program name1 buffer1
                   (Some size1) (Some FLOAT) (Some false) (Some 0) (Some 0);
     location2 ← enableAttribute program name2 buffer2
                   (Some size2) (Some FLOAT) (Some false) (Some 0) (Some 0);
     mret (buffer1, buffer2, location1, location2)) pl
      = (Return (buffer1, buffer2, Z.of_N i, Z.of_N j), pl')
    ∧ buffer1 ≠ buffer2
    ∧ attrib_at pl' i = VertexAttrib true (Some buffer1) size1 FLOAT false 0 0
    ∧ attrib_at pl' j = VertexAttrib true (Some buffer2) size2 FLOAT false 0 0
    ∧ buf_store <$> pl_buffers pl' !! buffer1 = Some (Some (data1, STATIC_DRAW))
    ∧ buf_store <$> pl_buffers pl' !! buffer2 = Some (Some (data2, STATIC_DRAW)).
Proof.
  intros Hp Hi Hj Hij Hli Hlj Hs1 Hs2.
  pose proof (createBuffer_effect ARRAY_BUFFER (Some data1) STATIC_DRAW pl) as E1.
  set (b1 := fresh (dom (pl_buffers pl))) in *.
  match type of E1 with _ = (_, ?q) => set (pl1 := q) in * end.
  pose proof (createBuffer_effect ARRAY_BUFFER (Some data2) STATIC_DRAW pl1) as E2.
  set (b2 := fresh (dom (pl_buffers pl1))) in *.
  match type of E2 with _ = (_, ?q) => set (pl2 := q) in * end.
  assert (Hne : b1 ≠ b2).
  { intros E. pose proof (fresh_buffer pl1) as Hf. fold b2 in Hf. rewrite <- E in Hf.
    cbn in Hf. rewrite lookup_insert_eq in Hf. discriminate. }
  assert (Hb1 : pl_buffers pl2 !! b1 = Some (BufferObj (Some ARRAY_BUFFER) (Some (data1, STATIC_DRAW)))).
  { cbn. rewrite lookup_insert_ne by congruence. apply lookup_insert_eq. }
  assert (Hb2 : pl_buffers pl2 !! b2 = Some (BufferObj (Some ARRAY_BUFFER) (Some (data2, STATIC_DRAW)))).
  { cbn. apply lookup_insert_eq. }
  assert (Hlay : ∀ s, 1 <= s <= 4 -> layout_ok s FLOAT 0 0).
  { intros s Hs. repeat split; cbn; lia. }
  destruct (enableAttribute_found pl2 program p name1 i b1
              (Some size1) (Some FLOAT) (Some false) (Some 0) (Some 0))
    as (pl3 & R3 & A3 & _ & _ & S3 & P3 & M3 & B3).
  { exact Hp. } { exact Hi. } { exact Hli. }
  { eexists. split; [exact Hb1 | discriminate]. }
  { apply Hlay, Hs1. }
  destruct (enableAttribute_found pl3 program p name2 j b2
              (Some size2) (Some FLOAT) (Some false) (Some 0) (Some 0))
    as (pl4 & R4 & A4 & _ & O4 & S4 & _).
  { rewrite P3. exact Hp. } { exact Hj. }
  { unfold valid_location. rewrite M3. exact Hlj. }
  { apply B3. eexists. split; [exact Hb2 | discriminate]. }
  { apply Hlay, Hs2. }
  exists b1, b2, pl4. split.
  { rewrite (GLP_bind_return _ _ _ _ _ E1), (GLP_bind_return _ _ _ _ _ E2).
    rewrite (GLP_bind_return _ _ _ _ _ R3), (GLP_bind_return _ _ _ _ _ R4). reflexivity. }
  split; [exact Hne |].
  split; [rewrite (O4 i Hij); exact A3 |].
  split; [exact A4 |].
  split; [rewrite S4, S3, Hb1; reflexivity | rewrite S4, S3, Hb2; reflexivity].
Qed.

Lemma attributes_keep_their_buffers_witness :
  ∃ (buffer1 buffer2 : N) (pl' : pipeline),
    (buffer1 ← createBuffer ARRAY_BUFFER (Some [0; 0; 0; 63]) STATIC_DRAW;
     buffer2 ← createBuffer ARRAY_BUFFER (Some [0; 0; 128; 63]) STATIC_DRAW;
     location1 ← enableAttribute 0%N "position" buffer1
                   (Some 3) (Some FLOAT) (Some false) (Some 0) (Some 0);
     location2 ← enableAttribute 0%N "uv" buffer2
                   (Some 2) (Some FLOAT) (Some false) (Some 0) (Some 0);
     mret (buffer1, buffer2, location1, location2)) quad_pipeline
      = (Return (buffer1, buffer2, 0, 1), pl')
    ∧ buffer1 ≠ buffer2
    ∧ attrib_at pl' 0%N = VertexAttrib true (Some buffer1) 3 FLOAT false 0 0
    ∧ attrib_at pl' 1%N = VertexAttrib true (Some buffer2) 2 FLOAT false 0 0
    ∧ buf_store <$> pl_buffers pl' !! buffer1 = Some (Some ([0; 0; 0; 63], STATIC_DRAW))
    ∧ buf_store <$> pl_buffers pl' !! buffer2 = Some (Some ([0; 0; 128; 63], STATIC_DRAW)).
Proof.
  apply (attributes_keep_their_buffers quad_pipeline 0%N
           (ProgramObj {[ "position" := 0%N; "uv" := 1%N ]}) "position" "uv" 0%N 1%N).
  - reflexivity.
  - reflexivity.
  - reflexivity.
  - discriminate.
  - split; vm_compute; reflexivity.
  - split; vm_compute; reflexivity.
  - lia.
  - lia.
Defined.

(** X19: [enableAttribute] with a buffer that belongs to [ELEMENT_ARRAY_BUFFER]:
    the context refuses to bind it to [ARRAY_BUFFER], nothing reports
    that, and the attribute ends up reading from the buffer that was bound
    before the call, not from the buffer given. *)
Theorem enableAttribute_element_buffer
    (pl : pipeline) (program : N) (p : program_obj) (name : string) (i buffer bound : N)
    (o : buffer_obj)
    (size : option Z) (type : option component_type) (normalized : option bool)
    (stride offset : option Z) :
  pl_programs pl !! program = Some p ->
  prog_attributes p !! name = Some i ->
  valid_location pl i ->
  pl_buffers pl !! buffer = Some o ->
  buf_target o = Some ELEMENT_ARRAY_BUFFER ->
  pl_array_buffer pl = Some bound ->
  layout_ok (default 3 size) (default FLOAT type) (default 0 stride) (default 0 offset) ->
  ∃ pl' : pipeline,
    enableAttribute program name buffer size type normalized stride offset pl
      = (Return (Z.of_N i), pl')
    ∧ va_enabled (attrib_at pl' i) = true
    ∧ va_buffer (attrib_at pl' i) = Some bound
    ∧ pl_array_buffer pl' = Some bound
    ∧ pl_buffers pl' = pl_buffers pl.
Proof.
  intros Hp Hi Hloc Ho Ht Hbound Hlay.
  unfold enableAttribute. cbv zeta.
  rewrite (GLP_bind_return _ _ _ _ _ (getAttribLocation_found _ _ _ _ _ Hp Hi)).
  rewrite (GLP_bind_return _ _ _ _ _ (enableVertexAttribArray_valid _ _ Hloc)).
  match goal with |- context [set_attrib i ?a pl] => set (pl1 := set_attrib i a pl) end.
  assert (E : gl_pipeline.bindBuffer ARRAY_BUFFER buffer pl1 = (Return tt, pl1)).
  { unfold gl_pipeline.bindBuffer.
    change (pl_buffers pl1) with (pl_buffers pl). rewrite Ho, Ht.
    rewrite decide_False by discriminate. reflexivity. }
  rewrite (GLP_bind_return _ _ _ _ _ E).
  assert (Hloc1 : valid_location pl1 i) by exact Hloc.
  assert (Hb1 : is_Some (pl_array_buffer pl1)) by (exists bound; exact Hbound).
  rewrite (GLP_bind_return _ _ _ _ _
             (vertexAttribPointer_valid _ _ _ _ (default false normalized) _ _ Hloc1 Hlay Hb1)).
  eexists. split; [reflexivity |].
  unfold attrib_at. cbn. rewrite !lookup_insert_eq. cbn.
  repeat split; assumption.
Qed.

Lemma enableAttribute_element_buffer_witness :
  let pl := snd (createBuffer ELEMENT_ARRAY_BUFFER (Some [0; 1; 2]) STATIC_DRAW
                   (snd (createBuffer ARRAY_BUFFER (Some [0; 0; 128; 63]) STATIC_DRAW
                           quad_pipeline))) in
  ∃ pl' : pipeline,
    enableAttribute 0%N "position" 1%N None None None None None pl = (Return 0, pl')
    ∧ va_enabled (attrib_at pl' 0%N) = true
    ∧ va_buffer (attrib_at pl' 0%N) = Some 0%N
    ∧ pl_array_buffer pl' = Some 0%N
    ∧ pl_buffers pl' = pl_buffers pl.
Proof.
  cbv zeta.
  apply (enableAttribute_element_buffer _ 0%N
           (ProgramObj {[ "position" := 0%N; "uv" := 1%N ]}) "position" 0%N 1%N 0%N
           (BufferObj (Some ELEMENT_ARRAY_BUFFER) (Some ([0; 1; 2], STATIC_DRAW)))).
  - reflexivity.
  - reflexivity.
  - split; vm_compute; reflexivity.
  - reflexivity.
  - reflexivity.
  - reflexivity.
  - repeat split; cbn; lia.
Defined.
